(** * eco-shipment-optimizer: route queries and load planning

    A shallow embedding of [src/main.py].  The class [EcoShipmentOptimizer]
    owns one [networkx.DiGraph]; [add_route] inserts an edge with derived
    weights, the two path queries call the library's weighted shortest path
    and turn [NetworkXNoPath] into the sentinel [([], inf)], and
    [optimize_load] is a single running-bin greedy pass over the demands
    sorted in descending order. *)

From Stdlib Require Import ZArith Lia.
From Stdlib Require Import Floats.SpecFloat.
From stdpp Require Import gmap strings list fin_maps sorting.

Local Open Scope Z_scope.

(** ** Python values and control *)

(** The exceptions that can leave the library calls of this program. *)
Inductive exn : Type :=
  | NodeNotFound
  | NetworkXNoPath
  | ValueError
  | UnboundLocalError.

(** Outcome of a call: a returned value or a raised exception.  The [while]
    loops of the library are run on a step budget computed from the graph;
    [OutOfFuel] marks an exhausted budget, which [queries_terminate] below
    rules out for every graph. *)
Inductive outcome (A : Type) : Type :=
  | Return (a : A)
  | Raise (e : exn)
  | OutOfFuel.
Arguments Return {A} a.
Arguments Raise {A} e.
Arguments OutOfFuel {A}.

(** ** The load planner *)

(** [sorted(demands, reverse=True)] on Python ints: the descending order. *)
Definition desc : relation Z := fun x y => y <= x.

#[local] Instance desc_dec x y : Decision (desc x y).
Proof. unfold desc. apply _. Defined.

Definition sorted_reverse (demands : list Z) : list Z := merge_sort desc demands.

(** The builtin [sum]: a left fold starting from [0]. *)
Definition sum (l : list Z) : Z := fold_left Z.add l 0.

(** One iteration of the [for demand in demands] loop; the state is the
    pair [(load_plans, current_vehicle_load)]. *)
Definition load_step (vehicle_capacity : Z) (st : list (list Z) * list Z) (demand : Z)
  : list (list Z) * list Z :=
  let '(load_plans, current_vehicle_load) := st in
  if sum current_vehicle_load + demand <=? vehicle_capacity
  then (load_plans, current_vehicle_load ++ [demand])
  else (load_plans ++ [current_vehicle_load], [demand]).

(** The body of [optimize_load]; it does not read [self]. *)
Definition load_plans_of (demands : list Z) (vehicle_capacity : Z) : list (list Z) :=
  let demands := sorted_reverse demands in
  let '(load_plans, current_vehicle_load) :=
    fold_left (load_step vehicle_capacity) demands ([], []) in
  match current_vehicle_load with
  | [] => load_plans
  | _ :: _ => load_plans ++ [current_vehicle_load]
  end.

(** What a bin may look like: within capacity, or a lone demand above it. *)
Definition bin_ok (cap : Z) (P : list Z) : Prop :=
  sum P <= cap \/ exists d, P = [d] /\ cap < d.

(** Why the loop closed the bin [P] and opened [Q]: the first demand of
    [Q] did not fit on top of [P]. *)
Definition closed_by (cap : Z) (P Q : list Z) : Prop :=
  exists d Q', Q = d :: Q' /\ cap < sum P + d.

(** Every bin of [L] but the last was closed by the bin after it. *)
Definition greedy (cap : Z) (L : list (list Z)) : Prop :=
  forall i P Q, L !! i = Some P -> L !! S i = Some Q -> closed_by cap P Q.

(** ** Numbers

    Edge weights are Python numbers: unbounded ints or binary64 floats.  The
    search only adds weights, multiplies a factor by a distance, and compares
    with [<] and [==], so it is written once over this interface. *)
Class Number (W : Type) : Type := {
  num_zero : W;
  num_add : W -> W -> W;
  num_mul : W -> W -> W;
  num_lt : W -> W -> bool;
  num_eq : W -> W -> bool
}.

(** [a <= b] as the search uses it: [not (b < a)]. *)
Definition num_le `{Number W} (a b : W) : Prop := num_lt b a = false.

(** Python ints. *)
#[export] Instance Z_Number : Number Z := {|
  num_zero := 0;
  num_add := Z.add;
  num_mul := Z.mul;
  num_lt := Z.ltb;
  num_eq := Z.eqb
|}.

(** Python floats: IEEE 754 binary64, round to nearest even. *)
Definition prec : Z := 53.
Definition emax : Z := 1024.
Definition binary64 : Type := spec_float.

#[export] Instance binary64_Number : Number binary64 := {|
  num_zero := S754_zero false;
  num_add := SFadd prec emax;
  num_mul := SFmul prec emax;
  num_lt := SFltb;
  num_eq := SFeqb
|}.

(** [float(n)] for an int [n], and the float literal [m / 10^k] written in
    decimal, both correctly rounded. *)
Definition float_of_Z (n : Z) : binary64 := binary_normalize prec emax n 0 false.
Definition decimal (m : Z) (k : nat) : binary64 :=
  SFdiv prec emax (float_of_Z m) (float_of_Z (10 ^ Z.of_nat k)).

(** The float [m * 2**e], as [math.ldexp(m, e)] gives it. *)
Definition dyadic (m e : Z) : binary64 := binary_normalize prec emax m e false.

(** The laws of exact ordered arithmetic under which the optimality results
    are stated: [<] is a strict total order decided together with [==], and
    addition is a commutative monoid that is monotone for the order. *)
Class NumberLaws (W : Type) `{Number W} : Prop := {
  num_eq_spec : forall a b : W, num_eq a b = true <-> a = b;
  num_lt_irrefl : forall a : W, num_lt a a = false;
  num_lt_trans : forall a b c : W,
    num_lt a b = true -> num_lt b c = true -> num_lt a c = true;
  num_lt_total : forall a b : W, num_lt a b = false -> num_lt b a = false -> a = b;
  num_add_comm : forall a b : W, num_add a b = num_add b a;
  num_add_assoc : forall a b c : W, num_add a (num_add b c) = num_add (num_add a b) c;
  num_add_zero_r : forall a : W, num_add a num_zero = a;
  num_add_mono : forall a b c : W, num_le a b -> num_le (num_add a c) (num_add b c)
}.

(** ** The graph library

    [networkx] is a dependency of the program, not part of it.  This module
    embeds the pieces the program calls, after networkx 3: [DiGraph] with
    [add_edge]; the weighted [shortest_path], which returns the path found by
    [bidirectional_dijkstra]; and the weighted [shortest_path_length], which
    returns the distance found by [dijkstra_path_length].  Both searches are
    Dijkstra's algorithm over heaps of [(distance, counter, node)] triples. *)
Module Nx.

Definition node : Type := string.

(** The attribute dictionary of an edge: the program always sets the same
    three keys. *)
Record EdgeData (W : Type) : Type := mkEdge {
  distance : W;
  emission : W;
  cost : W
}.
Arguments mkEdge {W} _ _ _.
Arguments distance {W} _.
Arguments emission {W} _.
Arguments cost {W} _.

(** The [weight=] keyword of the queries. *)
Inductive attr : Type := Distance | Emission | Cost.

Definition weight_function {W} (a : attr) (data : EdgeData W) : W :=
  match a with
  | Distance => distance data
  | Emission => emission data
  | Cost => cost data
  end.

(** Python dicts keep insertion order, and the order in which neighbours are
    visited decides ties, so adjacency is kept as association lists. *)
Definition adjacency (W : Type) : Type := list (node * list (node * EdgeData W)).

Fixpoint assoc {A} (l : list (node * A)) (k : node) : option A :=
  match l with
  | [] => None
  | (k', x) :: l' => if String.eqb k' k then Some x else assoc l' k
  end.

(** [d[k] = x]: overwrite in place, or append a new key. *)
Fixpoint assoc_set {A} (l : list (node * A)) (k : node) (x : A) : list (node * A) :=
  match l with
  | [] => [(k, x)]
  | (k', y) :: l' =>
      if String.eqb k' k then (k', x) :: l' else (k', y) :: assoc_set l' k x
  end.

(** [d[k]] for the inner dictionary of a node; every node of a graph has
    one, so the default is never used on a graph built by [add_edge]. *)
Definition items {A} (adj : list (node * list A)) (k : node) : list A :=
  default [] (assoc adj k).

Record DiGraph (W : Type) : Type := mkDiGraph {
  _node : list node;
  _succ : adjacency W;
  _pred : adjacency W
}.
Arguments mkDiGraph {W} _ _ _.
Arguments _node {W} _.
Arguments _succ {W} _.
Arguments _pred {W} _.

Definition empty {W} : DiGraph W := mkDiGraph [] [] [].

(** [neighs = [G._succ, G._pred]], indexed by the direction of a search:
    [backward] stands for [dir == 1]. *)
Definition neighs {W} (G : DiGraph W) (backward : bool) : adjacency W :=
  if backward then _pred G else _succ G.

(** [n in G] *)
Definition has_node {W} (G : DiGraph W) (n : node) : bool :=
  existsb (String.eqb n) (_node G).

Definition add_node_if_missing {W} (G : DiGraph W) (n : node) : DiGraph W :=
  if has_node G n then G
  else mkDiGraph (_node G ++ [n]) (_succ G ++ [(n, [])]) (_pred G ++ [(n, [])]).

(** [G.add_edge(u, v, **data)]: both end points become nodes, and the edge
    data replaces whatever the edge carried before. *)
Definition add_edge {W} (G : DiGraph W) (u v : node) (data : EdgeData W) : DiGraph W :=
  let G := add_node_if_missing G u in
  let G := add_node_if_missing G v in
  mkDiGraph (_node G)
    (assoc_set (_succ G) u (assoc_set (items (_succ G) u) v data))
    (assoc_set (_pred G) v (assoc_set (items (_pred G) v) u data)).

(** [G[u][v]], as [G.get_edge_data(u, v)] gives it: [None] without the edge. *)
Definition get_edge_data {W} (G : DiGraph W) (u v : node) : option (EdgeData W) :=
  assoc (items (_succ G) u) v.

(** The class invariant of [DiGraph]: the successor and the predecessor
    dictionaries describe the same edges, between nodes of the graph, and a
    dictionary has one entry for a key. *)
Record wf {W} (G : DiGraph W) : Prop := mkWf {
  wf_pred : forall u v data,
    (v, data) ∈ items (_succ G) u <-> (u, data) ∈ items (_pred G) v;
  wf_node : forall u v data,
    (v, data) ∈ items (_succ G) u -> has_node G u = true /\ has_node G v = true;
  wf_succ_keys : forall u, NoDup (items (_succ G) u).*1;
  wf_pred_keys : forall v, NoDup (items (_pred G) v).*1
}.


(** The node dictionary and the two adjacency dictionaries of a graph have
    the same keys in the same order, each once. *)
Definition same_keys {W} (G : DiGraph W) : Prop :=
  NoDup (_node G) /\ (_succ G).*1 = _node G /\ (_pred G).*1 = _node G.

(** [walk adj weight root v p w]: [p] lists the nodes of a walk from [root]
    to [v] along the edges of [adj], and [w] is the sum of its weights, added
    from the left as the search adds them. *)
Inductive walk {W} `{Number W} (adj : adjacency W) (weight : EdgeData W -> W)
    (root : node) : node -> list node -> W -> Prop :=
  | walk_root : walk adj weight root root [root] num_zero
  | walk_step v p w u e :
      walk adj weight root v p w ->
      (u, e) ∈ items adj v ->
      walk adj weight root u (p ++ [u]) (num_add w (weight e)).

(** A path of the graph from [source] to [target] with total weight [w]
    under the attribute [a]. *)
Definition path {W} `{Number W} (G : DiGraph W) (a : attr)
    (source target : node) (p : list node) (w : W) : Prop :=
  has_node G source = true /\ walk (_succ G) (weight_function a) source target p w.

(** [target] cannot be reached from [source]: no path, whatever the weights
    are read from. *)
Definition unreachable {W} `{Number W} (G : DiGraph W) (source target : node) : Prop :=
  forall a p w, ~ path G a source target p w.

(** No edge has a negative weight under [a]. *)
Definition nonneg {W} `{Number W} (G : DiGraph W) (a : attr) : Prop :=
  forall u v data, (v, data) ∈ items (_succ G) u ->
    num_le num_zero (weight_function a data).

Section Search.
Context {W : Type} `{Number W}.

(** *** The heap of [heapq]

    Entries are [(distance, counter, node)] tuples compared as Python
    compares tuples: by the first component that differs.  The counter is
    fresh for every push, so the comparison never reaches the node.  A heap
    is observed only through its minimum, so it is kept as a list. *)
Definition entry : Type := W * nat * node.

Definition entry_lt (x y : entry) : bool :=
  let '(d1, c1, _) := x in
  let '(d2, c2, _) := y in
  if num_eq d1 d2 then (c1 <? c2)%nat else num_lt d1 d2.

Definition heappush (heap : list entry) (x : entry) : list entry := heap ++ [x].

Fixpoint heappop (heap : list entry) : option (entry * list entry) :=
  match heap with
  | [] => None
  | x :: heap' =>
      match heappop heap' with
      | None => Some (x, [])
      | Some (y, rest) => if entry_lt y x then Some (y, x :: rest) else Some (x, heap')
      end
  end.

(** *** One direction of a search

    [dist] holds the final distances, [seen] the best distance found so far,
    [paths] the path that realises it, [fringe] the heap. *)
Record side : Type := mkSide {
  dist : gmap node W;
  seen : gmap node W;
  paths : gmap node (list node);
  fringe : list entry
}.

Definition init_side (root : node) (c : nat) : side :=
  mkSide ∅ {[root := num_zero]} {[root := [root]]} [(num_zero, c, root)].

Definition set_dist (sd : side) (v : node) (d : W) (rest : list entry) : side :=
  mkSide (<[v := d]> (dist sd)) (seen sd) (paths sd) rest.

Definition set_fringe (sd : side) (rest : list entry) : side :=
  mkSide (dist sd) (seen sd) (paths sd) rest.

(** The relaxing branch: [seen[u] = vu_dist], push, [paths[u] = paths[v] + [u]]. *)
Definition relaxed (sd : side) (c : nat) (v u : node) (vu_dist : W) : side :=
  mkSide (dist sd)
    (<[u := vu_dist]> (seen sd))
    (<[u := default [] (paths sd !! v) ++ [u]]> (paths sd))
    (heappush (fringe sd) (vu_dist, c, u)).

Variable weight : EdgeData W -> W.

(** The body of [for u, e in G_succ[v].items()], for the node [v] that has
    just received its final distance [d].  The result tells whether the edge
    was relaxed. *)
Definition relax (v : node) (d : W) (sd : side) (c : nat) (ue : node * EdgeData W)
  : outcome (side * nat * bool) :=
  let '(u, e) := ue in
  let vu_dist := num_add d (weight e) in
  match dist sd !! u with
  | Some u_dist =>
      if num_lt vu_dist u_dist then Raise ValueError else Return (sd, c, false)
  | None =>
      match seen sd !! u with
      | Some u_seen =>
          if num_lt vu_dist u_seen
          then Return (relaxed sd c v u vu_dist, S c, true)
          else Return (sd, c, false)
      | None => Return (relaxed sd c v u vu_dist, S c, true)
      end
  end.

(** **** [_dijkstra_multisource], with the single source of this program *)

Fixpoint relax_all (v : node) (d : W) (sd : side) (c : nat)
    (nbrs : list (node * EdgeData W)) : outcome (side * nat) :=
  match nbrs with
  | [] => Return (sd, c)
  | ue :: nbrs' =>
      match relax v d sd c ue with
      | Return (sd', c', _) => relax_all v d sd' c' nbrs'
      | Raise e => Raise e
      | OutOfFuel => OutOfFuel
      end
  end.

(** [while fringe:] pops the closest entry, skips a node that already has
    its final distance, stops at the target, and relaxes the out-edges. *)
Fixpoint search_loop (fuel : nat) (adj : adjacency W) (target : node)
    (sd : side) (c : nat) : outcome side :=
  match fuel with
  | O => OutOfFuel
  | S fuel' =>
      match heappop (fringe sd) with
      | None => Return sd
      | Some ((d, _, v), rest) =>
          match dist sd !! v with
          | Some _ => search_loop fuel' adj target (set_fringe sd rest) c
          | None =>
              let sd := set_dist sd v d rest in
              if String.eqb v target then Return sd
              else
                match relax_all v d sd c (items adj v) with
                | Return (sd', c') => search_loop fuel' adj target sd' c'
                | Raise e => Raise e
                | OutOfFuel => OutOfFuel
                end
          end
      end
  end.

(** Every pop is paid for by the initial push or by an adjacency entry of a
    node that received its final distance, so this budget is enough. *)
Definition edge_count (adj : adjacency W) : nat :=
  fold_right (fun kv n => (length (snd kv) + n)%nat) O adj.

(** The search also records [paths] here; the program's length query runs
    it without, which changes nothing else. *)
Definition dijkstra_multisource (G : DiGraph W) (source target : node) : outcome side :=
  search_loop (2 + edge_count (_succ G)) (_succ G) target (init_side source 0) 1.

(** **** [bidirectional_dijkstra]

    Two searches, one from the source along successors and one from the
    target along predecessors, take turns; [final] is the best joined path
    found so far, [None] while [finalpath == []]. *)
Record both : Type := mkBoth {
  fwd : side;
  bwd : side;
  final : option (W * list node)
}.

(** [x[dir]] and its update, [backward] standing for [dir == 1]. *)
Definition side_of (st : both) (backward : bool) : side :=
  if backward then bwd st else fwd st.

Definition put (st : both) (backward : bool) (sd : side) : both :=
  if backward then mkBoth (fwd st) sd (final st) else mkBoth sd (bwd st) (final st).

(** After relaxing an edge into [w]: if both searches have seen [w], the
    path through [w] replaces [final] when it is strictly shorter. *)
Definition meet (st : both) (w : node) : both :=
  match seen (fwd st) !! w, seen (bwd st) !! w with
  | Some a, Some b =>
      let totaldist := num_add a b in
      let finalpath :=
        default [] (paths (fwd st) !! w) ++ tail (reverse (default [] (paths (bwd st) !! w))) in
      match final st with
      | None => mkBoth (fwd st) (bwd st) (Some (totaldist, finalpath))
      | Some (finaldist, _) =>
          if num_lt totaldist finaldist
          then mkBoth (fwd st) (bwd st) (Some (totaldist, finalpath))
          else st
      end
  | _, _ => st
  end.

Fixpoint bi_relax_all (backward : bool) (v : node) (d : W) (st : both) (c : nat)
    (nbrs : list (node * EdgeData W)) : outcome (both * nat) :=
  match nbrs with
  | [] => Return (st, c)
  | ue :: nbrs' =>
      match relax v d (side_of st backward) c ue with
      | Return (sd', c', was_relaxed) =>
          let st := put st backward sd' in
          let st := if was_relaxed then meet st (fst ue) else st in
          bi_relax_all backward v d st c' nbrs'
      | Raise e => Raise e
      | OutOfFuel => OutOfFuel
      end
  end.

(** [while fringe[0] and fringe[1]:], with [backward] the direction of this
    turn.  The search ends when a node has its final distance on both sides. *)
Fixpoint bi_loop (fuel : nat) (G : DiGraph W) (backward : bool) (st : both) (c : nat)
  : outcome (W * list node) :=
  match fuel with
  | O => OutOfFuel
  | S fuel' =>
      match fringe (fwd st), fringe (bwd st) with
      | [], _ | _, [] => Raise NetworkXNoPath
      | _ :: _, _ :: _ =>
          let sd := side_of st backward in
          match heappop (fringe sd) with
          | None => Raise NetworkXNoPath
          | Some ((d, _, v), rest) =>
              match dist sd !! v with
              | Some _ => bi_loop fuel' G (negb backward) (put st backward (set_fringe sd rest)) c
              | None =>
                  let st := put st backward (set_dist sd v d rest) in
                  match dist (side_of st (negb backward)) !! v with
                  | Some _ =>
                      match final st with
                      | Some r => Return r
                      | None => Raise UnboundLocalError
                      end
                  | None =>
                      let nbrs := items (neighs G backward) v in
                      match bi_relax_all backward v d st c nbrs with
                      | Return (st', c') => bi_loop fuel' G (negb backward) st' c'
                      | Raise e => Raise e
                      | OutOfFuel => OutOfFuel
                      end
                  end
              end
          end
      end
  end.

Definition bidirectional_dijkstra (G : DiGraph W) (source target : node)
  : outcome (W * list node) :=
  if negb (has_node G source) || negb (has_node G target) then Raise NodeNotFound
  else if String.eqb source target then Return (num_zero, [source])
  else
    bi_loop (3 + edge_count (_succ G) + edge_count (_pred G)) G false
      (mkBoth (init_side source 0) (init_side target 1) None) 2.

(** [dijkstra_path_length] *)
Definition dijkstra_path_length (G : DiGraph W) (source target : node) : outcome W :=
  if negb (has_node G source) then Raise NodeNotFound
  else if String.eqb source target then Return num_zero
  else
    match dijkstra_multisource G source target with
    | Return sd =>
        match dist sd !! target with
        | Some length => Return length
        | None => Raise NetworkXNoPath
        end
    | Raise e => Raise e
    | OutOfFuel => OutOfFuel
    end.

End Search.

(** [nx.shortest_path(G, source, target, weight=a)]: the default method takes
    the path of the bidirectional search. *)
Definition shortest_path {W} `{Number W} (G : DiGraph W) (source target : node) (a : attr)
  : outcome (list node) :=
  match bidirectional_dijkstra (weight_function a) G source target with
  | Return (_, path) => Return path
  | Raise e => Raise e
  | OutOfFuel => OutOfFuel
  end.

(** [nx.shortest_path_length(G, source, target, weight=a)] *)
Definition shortest_path_length {W} `{Number W} (G : DiGraph W) (source target : node)
    (a : attr) : outcome W :=
  dijkstra_path_length (weight_function a) G source target.

(** *** The library called on the graph object

    The definitions above give the searches as functions of the value of
    the graph.  The program, however, hands [self.graph] itself to the
    library, not a copy, and what the library does to that object the
    program sees afterwards.  A call therefore takes the graph as it finds
    it and gives it back as it leaves it, next to its result; every access
    of the library to [G] is a step of the call.  The searches are written
    out again in this form, loop for loop; their dictionaries and heaps are
    objects of their own, made in the call, and stay values. *)
Module Obj.

Section Calls.
Context {W : Type} `{Number W}.

Definition call (A : Type) : Type := DiGraph W -> A * DiGraph W.

Definition ret {A} (a : A) : call A := fun G => (a, G).

Definition bind {A B} (m : call A) (k : A -> call B) : call B :=
  fun G => let r := m G in k (fst r) (snd r).

(** [n in G] *)
Definition contains (n : node) : call bool := fun G => (has_node G n, G).

(** [neighs[dir][v].items()], and [G._adj[v].items()] for [dir == 0] *)
Definition neighbours (backward : bool) (v : node) : call (list (node * EdgeData W)) :=
  fun G => (items (neighs G backward) v, G).

(** The number of adjacency entries in one direction, for the step budget. *)
Definition entries (backward : bool) : call nat :=
  fun G => (edge_count (neighs G backward), G).

(** [G.add_edge(u, v, **data)], the one call of the program that writes. *)
Definition add_edge (u v : node) (data : EdgeData W) : call unit :=
  fun G => (tt, Nx.add_edge G u v data).

Variable weight : EdgeData W -> W.

Fixpoint search_loop (fuel : nat) (target : node) (sd : side) (c : nat)
  : call (outcome side) :=
  match fuel with
  | O => ret OutOfFuel
  | S fuel' =>
      match heappop (fringe sd) with
      | None => ret (Return sd)
      | Some ((d, _, v), rest) =>
          match dist sd !! v with
          | Some _ => search_loop fuel' target (set_fringe sd rest) c
          | None =>
              let sd := set_dist sd v d rest in
              if String.eqb v target then ret (Return sd)
              else
                bind (neighbours false v) (fun nbrs =>
                  match relax_all weight v d sd c nbrs with
                  | Return (sd', c') => search_loop fuel' target sd' c'
                  | Raise e => ret (Raise e)
                  | OutOfFuel => ret OutOfFuel
                  end)
          end
      end
  end.

Definition dijkstra_multisource (source target : node) : call (outcome side) :=
  bind (entries false) (fun n =>
    search_loop (2 + n) target (init_side source 0) 1).

Fixpoint bi_loop (fuel : nat) (backward : bool) (st : both) (c : nat)
  : call (outcome (W * list node)) :=
  match fuel with
  | O => ret OutOfFuel
  | S fuel' =>
      match fringe (fwd st), fringe (bwd st) with
      | [], _ | _, [] => ret (Raise NetworkXNoPath)
      | _ :: _, _ :: _ =>
          let sd := side_of st backward in
          match heappop (fringe sd) with
          | None => ret (Raise NetworkXNoPath)
          | Some ((d, _, v), rest) =>
              match dist sd !! v with
              | Some _ => bi_loop fuel' (negb backward) (put st backward (set_fringe sd rest)) c
              | None =>
                  let st := put st backward (set_dist sd v d rest) in
                  match dist (side_of st (negb backward)) !! v with
                  | Some _ =>
                      match final st with
                      | Some r => ret (Return r)
                      | None => ret (Raise UnboundLocalError)
                      end
                  | None =>
                      bind (neighbours backward v) (fun nbrs =>
                        match bi_relax_all weight backward v d st c nbrs with
                        | Return (st', c') => bi_loop fuel' (negb backward) st' c'
                        | Raise e => ret (Raise e)
                        | OutOfFuel => ret OutOfFuel
                        end)
                  end
              end
          end
      end
  end.

Definition bidirectional_dijkstra (source target : node) : call (outcome (W * list node)) :=
  bind (contains source) (fun has_source =>
    if negb has_source then ret (Raise NodeNotFound)
    else
      bind (contains target) (fun has_target =>
        if negb has_target then ret (Raise NodeNotFound)
        else if String.eqb source target then ret (Return (num_zero, [source]))
        else
          bind (entries false) (fun n =>
          bind (entries true) (fun m =>
            bi_loop (3 + n + m) false
              (mkBoth (init_side source 0) (init_side target 1) None) 2)))).

Definition dijkstra_path_length (source target : node) : call (outcome W) :=
  bind (contains source) (fun has_source =>
    if negb has_source then ret (Raise NodeNotFound)
    else if String.eqb source target then ret (Return num_zero)
    else
      bind (dijkstra_multisource source target) (fun r =>
        ret (match r with
             | Return sd =>
                 match dist sd !! target with
                 | Some length => Return length
                 | None => Raise NetworkXNoPath
                 end
             | Raise e => Raise e
             | OutOfFuel => OutOfFuel
             end))).

End Calls.

Definition shortest_path {W} `{Number W} (source target : node) (a : attr)
  : call (outcome (list node)) :=
  bind (bidirectional_dijkstra (weight_function a) source target) (fun r =>
    ret (match r with
         | Return (_, path) => Return path
         | Raise e => Raise e
         | OutOfFuel => OutOfFuel
         end)).

Definition shortest_path_length {W} `{Number W} (source target : node) (a : attr)
  : call (outcome W) :=
  dijkstra_path_length (weight_function a) source target.

End Obj.

End Nx.

(** ** The optimizer *)

(** The second component of a query result: the library's length, or
    [float('inf')]. *)
Inductive length_or_inf (W : Type) : Type :=
  | Finite (w : W)
  | Inf.
Arguments Finite {W} w.
Arguments Inf {W}.

Section Optimizer.
Context {W : Type} `{Number W}.

(** The object state: [self.graph]. *)
Record EcoShipmentOptimizer : Type := mkOptimizer {
  graph : Nx.DiGraph W
}.

(** A method takes [self] and gives its result with the state it leaves. *)
Definition method (A : Type) : Type := EcoShipmentOptimizer -> A * EcoShipmentOptimizer.

Definition __init__ : EcoShipmentOptimizer := mkOptimizer Nx.empty.

(** A method that hands [self.graph] to a library call: the graph the call
    leaves is the graph of the object from then on. *)
Definition on_graph {A} (m : Nx.Obj.call A) : method A :=
  fun self => let r := m (graph self) in (fst r, mkOptimizer (snd r)).

Definition add_route (source target : Nx.node) (distance emission_factor cost : W)
  : method unit :=
  on_graph
    (Nx.Obj.add_edge source target
       (Nx.mkEdge distance (num_mul emission_factor distance) (num_mul cost distance))).

(** [try: ... except nx.NetworkXNoPath: return [], float('inf')]; any other
    exception leaves the method. *)
Definition calculate_min_emission_path (source target : Nx.node)
  : method (outcome (list Nx.node * length_or_inf W)) :=
  on_graph
    (Nx.Obj.bind (Nx.Obj.shortest_path source target Nx.Emission) (fun r =>
       match r with
       | Return path =>
           Nx.Obj.bind (Nx.Obj.shortest_path_length source target Nx.Emission) (fun r' =>
             Nx.Obj.ret
               match r' with
               | Return emission => Return (path, Finite emission)
               | Raise NetworkXNoPath => Return ([], Inf)
               | Raise e => Raise e
               | OutOfFuel => OutOfFuel
               end)
       | Raise NetworkXNoPath => Nx.Obj.ret (Return ([], Inf))
       | Raise e => Nx.Obj.ret (Raise e)
       | OutOfFuel => Nx.Obj.ret OutOfFuel
       end)).

Definition calculate_min_cost_path (source target : Nx.node)
  : method (outcome (list Nx.node * length_or_inf W)) :=
  on_graph
    (Nx.Obj.bind (Nx.Obj.shortest_path source target Nx.Cost) (fun r =>
       match r with
       | Return path =>
           Nx.Obj.bind (Nx.Obj.shortest_path_length source target Nx.Cost) (fun r' =>
             Nx.Obj.ret
               match r' with
               | Return cost => Return (path, Finite cost)
               | Raise NetworkXNoPath => Return ([], Inf)
               | Raise e => Raise e
               | OutOfFuel => OutOfFuel
               end)
       | Raise NetworkXNoPath => Nx.Obj.ret (Return ([], Inf))
       | Raise e => Nx.Obj.ret (Raise e)
       | OutOfFuel => Nx.Obj.ret OutOfFuel
       end)).

(** The two queries are one text up to the attribute they minimise; this is
    that text, with the attribute as a parameter. *)
Definition calculate_min_path (a : Nx.attr) (source target : Nx.node)
  : method (outcome (list Nx.node * length_or_inf W)) :=
  on_graph
    (Nx.Obj.bind (Nx.Obj.shortest_path source target a) (fun r =>
       match r with
       | Return path =>
           Nx.Obj.bind (Nx.Obj.shortest_path_length source target a) (fun r' =>
             Nx.Obj.ret
               match r' with
               | Return length => Return (path, Finite length)
               | Raise NetworkXNoPath => Return ([], Inf)
               | Raise e => Raise e
               | OutOfFuel => OutOfFuel
               end)
       | Raise NetworkXNoPath => Nx.Obj.ret (Return ([], Inf))
       | Raise e => Nx.Obj.ret (Raise e)
       | OutOfFuel => Nx.Obj.ret OutOfFuel
       end)).

(** What a query answers when the two library calls are taken as functions
    of the value of the graph. *)
Definition min_path_of (a : Nx.attr) (G : Nx.DiGraph W) (source target : Nx.node)
  : outcome (list Nx.node * length_or_inf W) :=
  match Nx.shortest_path G source target a with
  | Return path =>
      match Nx.shortest_path_length G source target a with
      | Return length => Return (path, Finite length)
      | Raise NetworkXNoPath => Return ([], Inf)
      | Raise e => Raise e
      | OutOfFuel => OutOfFuel
      end
  | Raise NetworkXNoPath => Return ([], Inf)
  | Raise e => Raise e
  | OutOfFuel => OutOfFuel
  end.

Definition optimize_load (demands : list Z) (vehicle_capacity : Z)
  : method (list (list Z)) :=
  fun self => (load_plans_of demands vehicle_capacity, self).

End Optimizer.
Arguments EcoShipmentOptimizer W : clear implicits.

(** The objects a program can hold: a fresh optimizer, changed by
    [add_route] only. *)
Inductive built {W} `{Number W} : EcoShipmentOptimizer W -> Prop :=
  | built_init : built __init__
  | built_add_route self source target distance emission_factor cost :
      built self ->
      built (snd (add_route source target distance emission_factor cost self)).

(** [m1 >> m2]: run two methods on the same object, one after the other. *)
Definition then_ {W A B} (m1 : @method W A) (m2 : @method W B) : @method W B :=
  fun self => m2 (snd (m1 self)).
Infix ">>" := then_ (at level 61, left associativity).

(** The routes of the demonstration in [main], with float factors. *)
Definition demo_routes : @method binary64 unit :=
  add_route "A" "B" (float_of_Z 100) (decimal 1 1) (decimal 10 1) >>
  add_route "B" "C" (float_of_Z 50) (decimal 2 1) (decimal 5 1) >>
  add_route "A" "C" (float_of_Z 140) (decimal 15 2) (decimal 85 2) >>
  add_route "C" "D" (float_of_Z 60) (decimal 18 2) (decimal 9 1).

Definition demo : EcoShipmentOptimizer binary64 := snd (demo_routes __init__).

(** The same routes in exact arithmetic: Python ints, with the factors
    given in hundredths. *)
Definition demo_int_routes : @method Z unit :=
  add_route "A" "B" 100 10 100 >>
  add_route "B" "C" 50 20 50 >>
  add_route "A" "C" 140 15 85 >>
  add_route "C" "D" 60 18 90.

Definition demo_int : EcoShipmentOptimizer Z := snd (demo_int_routes __init__).

(** A network on which the rounding of float sums shows.  Every route has
    distance [1.0], so its emission and its cost are its factor.  From [S]
    to [T] the way over [X] and [Y] adds up to [1 + 2**-52] without
    rounding; the way over [P] and [Q] is [1 + 2**-53 + 2**-54], which is
    less. *)
Definition rounding_routes : @method binary64 unit :=
  add_route "S" "X" (float_of_Z 1) (dyadic 1 (-1)) (dyadic 1 (-1)) >>
  add_route "X" "Y" (float_of_Z 1) (dyadic 1 (-2)) (dyadic 1 (-2)) >>
  add_route "Y" "T" (float_of_Z 1) (dyadic (2 ^ 50 + 1) (-52)) (dyadic (2 ^ 50 + 1) (-52)) >>
  add_route "S" "P" (float_of_Z 1) (float_of_Z 1) (float_of_Z 1) >>
  add_route "P" "Q" (float_of_Z 1) (dyadic 1 (-53)) (dyadic 1 (-53)) >>
  add_route "Q" "T" (float_of_Z 1) (dyadic 1 (-54)) (dyadic 1 (-54)).

Definition rounding : EcoShipmentOptimizer binary64 := snd (rounding_routes __init__).

(** ** Invariants of the searches *)

Section Invariant.
Context {W : Type} `{Number W}.
Variables (adj : Nx.adjacency W) (weight : Nx.EdgeData W -> W) (root : Nx.node).

(** The state of one search while it relaxes the edges [todo] still to be
    visited of [cur], the last node to receive its final distance; between
    two turns of the loop [todo] is empty. *)
Record side_inv (cur : Nx.node) (todo : list (Nx.node * Nx.EdgeData W))
    (sd : @Nx.side W) : Prop := mkSideInv {
  inv_seen_walk : forall u su, Nx.seen sd !! u = Some su ->
    exists p, Nx.paths sd !! u = Some p /\ Nx.walk adj weight root u p su;
  inv_dist_seen : forall v d, Nx.dist sd !! v = Some d -> Nx.seen sd !! v = Some d;
  inv_dist_opt : forall v d, Nx.dist sd !! v = Some d ->
    forall q w, Nx.walk adj weight root v q w -> num_le d w;
  inv_closed : forall v d u e, Nx.dist sd !! v = Some d -> (u, e) ∈ Nx.items adj v ->
    (v = cur /\ (u, e) ∈ todo) \/
    exists su, Nx.seen sd !! u = Some su /\ num_le su (num_add d (weight e));
  inv_todo : forall ue, ue ∈ todo -> ue ∈ Nx.items adj cur;
  inv_fringe_has : forall u su, Nx.seen sd !! u = Some su -> Nx.dist sd !! u = None ->
    exists c, (su, c, u) ∈ Nx.fringe sd;
  inv_fringe_seen : forall d c u, (d, c, u) ∈ Nx.fringe sd ->
    exists su, Nx.seen sd !! u = Some su /\ num_le su d;
  inv_started : Nx.dist sd !! root = None -> exists c, sd = Nx.init_side root c;
  inv_mono : forall v dv d c u, Nx.dist sd !! v = Some dv -> (d, c, u) ∈ Nx.fringe sd ->
    num_le dv d;
  inv_last : forall dcur v dv, Nx.dist sd !! cur = Some dcur -> Nx.dist sd !! v = Some dv ->
    num_le dv dcur
}.

(** The adjacency entries of the nodes that have no final distance yet: what
    the search may still push. *)
Definition pending (dist : gmap Nx.node W) : nat :=
  fold_right (fun kv n => match dist !! kv.1 with
                          | None => (length kv.2 + n)%nat
                          | Some _ => n
                          end) O adj.

End Invariant.

Section BiInvariant.
Context {W : Type} `{Number W}.
Variables (G : Nx.DiGraph W) (weight : Nx.EdgeData W -> W) (source target : Nx.node).

(** The root of a direction. *)
Definition root_of (backward : bool) : Nx.node :=
  if backward then target else source.

(** What the two searches know of each other: [final] is a walk from the
    source to the target, at most as long as the two seen distances of any
    node seen from both ends; no node has a final distance on both sides. *)
Record meet_inv (st : @Nx.both W) : Prop := mkMeetInv {
  meet_bound : forall w a b,
    Nx.seen (Nx.fwd st) !! w = Some a -> Nx.seen (Nx.bwd st) !! w = Some b ->
    exists fd fp, Nx.final st = Some (fd, fp) /\ num_le fd (num_add a b);
  meet_walk : forall fd fp, Nx.final st = Some (fd, fp) ->
    Nx.walk (Nx._succ G) weight source target fp fd;
  meet_disjoint : forall x dx dy,
    Nx.dist (Nx.fwd st) !! x = Some dx -> Nx.dist (Nx.bwd st) !! x = Some dy -> False
}.

(** The state while the side [backward] relaxes the edges [todo] of [v]. *)
Record bi_mid (backward : bool) (v : Nx.node) (todo : list (Nx.node * Nx.EdgeData W))
    (st : @Nx.both W) : Prop := mkBiMid {
  mid_this : side_inv (Nx.neighs G backward) weight (root_of backward) v todo
               (Nx.side_of st backward);
  mid_other : exists cur,
    side_inv (Nx.neighs G (negb backward)) weight (root_of (negb backward)) cur []
      (Nx.side_of st (negb backward));
  mid_meet : meet_inv st
}.

(** How far the alternation has come when the side [backward] is to move:
    the forward side moves first, and a side gives its root the final
    distance in its first move. *)
Record turn_inv (backward : bool) (st : @Nx.both W) : Prop := mkTurnInv {
  turn_f : backward = true -> is_Some (Nx.dist (Nx.fwd st) !! source);
  turn_0 : Nx.dist (Nx.fwd st) !! source = None -> Nx.dist (Nx.bwd st) !! target = None;
  turn_1 : Nx.dist (Nx.bwd st) !! target = None ->
    forall x d, Nx.dist (Nx.fwd st) !! x = Some d -> x = source;
  turn_b : backward = false -> is_Some (Nx.dist (Nx.fwd st) !! source) ->
    is_Some (Nx.dist (Nx.bwd st) !! target)
}.

(** What the search may answer: a walk from the source to the target that
    no other is shorter than, or that there is none. *)
Definition bi_post (res : outcome (W * list Nx.node)) : Prop :=
  match res with
  | Return (fd, fp) =>
      Nx.walk (Nx._succ G) weight source target fp fd /\
      forall q L, Nx.walk (Nx._succ G) weight source target q L -> num_le fd L
  | Raise NetworkXNoPath =>
      forall q L, ~ Nx.walk (Nx._succ G) weight source target q L
  | _ => False
  end.

Definition bi_inv (backward : bool) (st : @Nx.both W) : Prop :=
  (exists cur, bi_mid backward cur [] st) /\ turn_inv backward st.

Definition bi_measure (st : @Nx.both W) : nat :=
  (length (Nx.fringe (Nx.fwd st)) + length (Nx.fringe (Nx.bwd st))
   + pending (Nx._succ G) (Nx.dist (Nx.fwd st))
   + pending (Nx._pred G) (Nx.dist (Nx.bwd st)))%nat.

End BiInvariant.

(** * Properties *)

(** ** The load planner *)

#[local] Instance desc_total : Total desc.
Proof. intros x y. unfold desc. lia. Qed.

#[local] Instance desc_trans : Transitive desc.
Proof. intros x y z. unfold desc. lia. Qed.

#[local] Instance desc_antisym : AntiSymm (=) desc.
Proof. intros x y. unfold desc. lia. Qed.

Lemma sum_snoc l d : sum (l ++ [d]) = sum l + d.
Proof. unfold sum. by rewrite fold_left_app. Qed.

(** The loop only moves demands: plans and current bin together always hold
    exactly the demands consumed so far, in the order they were consumed. *)
Lemma load_loop_concat cap demands plans cur :
  let '(plans', cur') := fold_left (load_step cap) demands (plans, cur) in
  concat plans' ++ cur' = concat plans ++ cur ++ demands.
Proof.
  revert plans cur. induction demands as [|d demands IH]; intros plans cur; simpl.
  - by rewrite app_nil_r.
  - destruct (sum cur + d <=? cap).
    + specialize (IH plans (cur ++ [d])).
      destruct (fold_left _ _ _) as [plans' cur']. rewrite IH.
      by rewrite <- !app_assoc.
    + specialize (IH (plans ++ [cur]) [d]).
      destruct (fold_left _ _ _) as [plans' cur']. rewrite IH.
      rewrite concat_app. simpl. by rewrite app_nil_r, <- !app_assoc.
Qed.

Lemma load_plans_concat demands cap :
  concat (load_plans_of demands cap) = sorted_reverse demands.
Proof.
  unfold load_plans_of.
  pose proof (load_loop_concat cap (sorted_reverse demands) [] []) as Hc.
  destruct (fold_left _ _ _) as [plans cur]. simpl in Hc.
  destruct cur as [|d cur].
  - by rewrite app_nil_r in Hc.
  - rewrite concat_app. simpl. by rewrite app_nil_r.
Qed.

Lemma load_loop_bins cap demands plans cur :
  Forall (bin_ok cap) plans -> bin_ok cap cur ->
  let '(plans', cur') := fold_left (load_step cap) demands (plans, cur) in
  Forall (bin_ok cap) plans' /\ bin_ok cap cur'.
Proof.
  revert plans cur. induction demands as [|d demands IH]; intros plans cur Hp Hc; simpl.
  - done.
  - destruct (Z.leb_spec (sum cur + d) cap) as [Hle|Hgt].
    + apply IH; [done|]. left. by rewrite sum_snoc.
    + apply IH.
      * apply Forall_app. split; [done|]. by apply Forall_singleton.
      * destruct (Z.le_gt_cases d cap) as [Hd|Hd].
        -- left. unfold sum. simpl. lia.
        -- right. by exists d.
Qed.

Lemma load_plans_bins demands cap :
  0 < cap -> Forall (bin_ok cap) (load_plans_of demands cap).
Proof.
  intros Hcap. unfold load_plans_of.
  assert (Hnil : bin_ok cap []) by (left; unfold sum; simpl; lia).
  pose proof (load_loop_bins cap (sorted_reverse demands) [] [] (Forall_nil_2 _) Hnil) as Hb.
  destruct (fold_left _ _ _) as [plans cur]. destruct Hb as [Hp Hc].
  destruct cur as [|d cur]; [done|].
  apply Forall_app. split; [done|]. by apply Forall_singleton.
Qed.

Lemma sorted_reverse_perm demands : sorted_reverse demands ≡ₚ demands.
Proof. apply merge_sort_Permutation. Qed.

Lemma sorted_reverse_sorted demands : StronglySorted desc (sorted_reverse demands).
Proof. apply StronglySorted_merge_sort; apply _. Qed.

(** Sorting forgets the order of the input. *)
Lemma sorted_reverse_unique l1 l2 : l1 ≡ₚ l2 -> sorted_reverse l1 = sorted_reverse l2.
Proof.
  intros Hp. apply (StronglySorted_unique desc); try apply sorted_reverse_sorted.
  by rewrite !sorted_reverse_perm.
Qed.

(** C2 (the code departs from it): on demands [[120]] and capacity [100] the
    first demand does not fit the still empty current bin, so the loop closes
    that empty bin before it opens the bin of [120]: two plans come back, the
    first of them empty, where the claim expects the single plan [[120]]. *)
Theorem optimize_load_over_capacity_alone {W : Type} `{Number W}
    (self : EcoShipmentOptimizer W) :
  fst (optimize_load [120] 100 self) = [[]; [120]].
Proof. reflexivity. Qed.

(** C3: for a non-empty demand list and a capacity [C > 0], every plan sums
    to at most [C], unless it is a single demand that itself exceeds [C]. *)
Theorem optimize_load_within_capacity {W : Type} `{Number W}
    (self : EcoShipmentOptimizer W) (D : list Z) (C : Z) :
  D <> [] -> 0 < C ->
  Forall (fun P => sum P <= C \/ exists d, P = [d] /\ C < d)
         (fst (optimize_load D C self)).
Proof. intros _ HC. simpl. by apply load_plans_bins. Qed.

Lemma optimize_load_within_capacity_witness :
  [30; 120; 80] <> [] /\ 0 < 100 /\
  Forall (fun P => sum P <= 100 \/ exists d, P = [d] /\ 100 < d)
         (fst (optimize_load [30; 120; 80] 100 (@__init__ Z))).
Proof.
  split; [discriminate|]. split; [lia|].
  apply (optimize_load_within_capacity (@__init__ Z) [30; 120; 80] 100); [discriminate|lia].
Defined.

(** C4: the demands of all plans together are the input demands as a
    multiset: the plans, read one after the other, are a permutation of the
    input. *)
Theorem optimize_load_multiset {W : Type} `{Number W}
    (self : EcoShipmentOptimizer W) (D : list Z) (C : Z) :
  0 < C -> concat (fst (optimize_load D C self)) ≡ₚ D.
Proof. intros _. simpl. rewrite load_plans_concat. apply sorted_reverse_perm. Qed.

Lemma optimize_load_multiset_witness :
  0 < 100 /\ concat (fst (optimize_load [30; 40; 20; 50; 30] 100 (@__init__ Z)))
             ≡ₚ [30; 40; 20; 50; 30].
Proof.
  split; [lia|].
  apply (optimize_load_multiset (@__init__ Z) [30; 40; 20; 50; 30] 100). lia.
Defined.

(** C7: on any arrangement of the demands [50, 40, 30, 30, 20] with capacity
    [100] the plans are [[50, 40], [30, 30, 20]], in that order. *)
Theorem optimize_load_scenario2 {W : Type} `{Number W}
    (self : EcoShipmentOptimizer W) (D : list Z) :
  D ≡ₚ [50; 40; 30; 30; 20] ->
  fst (optimize_load D 100 self) = [[50; 40]; [30; 30; 20]].
Proof.
  intros HD. simpl. unfold load_plans_of.
  by rewrite (sorted_reverse_unique _ _ HD).
Qed.

Lemma optimize_load_scenario2_witness :
  [30; 40; 20; 50; 30] ≡ₚ [50; 40; 30; 30; 20] /\
  fst (optimize_load [30; 40; 20; 50; 30] 100 (@__init__ Z)) = [[50; 40]; [30; 30; 20]].
Proof.
  assert (Hp : [30; 40; 20; 50; 30] ≡ₚ [50; 40; 30; 30; 20])
    by (apply (bool_decide_unpack _); vm_compute; exact I).
  split; [exact Hp|].
  exact (optimize_load_scenario2 (@__init__ Z) [30; 40; 20; 50; 30] Hp).
Defined.

(** C9: without demands there are no plans, whatever the capacity [C > 0]. *)
Theorem optimize_load_empty {W : Type} `{Number W}
    (self : EcoShipmentOptimizer W) (C : Z) :
  0 < C -> fst (optimize_load [] C self) = [].
Proof. reflexivity. Qed.

Lemma optimize_load_empty_witness :
  0 < 100 /\ fst (optimize_load [] 100 (@__init__ Z)) = [].
Proof. split; [lia|]. apply (optimize_load_empty (@__init__ Z) 100). lia. Defined.

(** C10: read one after the other, the plans are the demands in descending
    order: a permutation of the input in which no demand is followed, in its
    plan or in a later one, by a larger demand. *)
Theorem optimize_load_descending {W : Type} `{Number W}
    (self : EcoShipmentOptimizer W) (D : list Z) (C : Z) :
  0 < C ->
  concat (fst (optimize_load D C self)) = sorted_reverse D /\
  sorted_reverse D ≡ₚ D /\
  StronglySorted (fun x y => y <= x) (sorted_reverse D).
Proof.
  intros _. split; [apply load_plans_concat|].
  split; [apply sorted_reverse_perm | apply sorted_reverse_sorted].
Qed.

Lemma optimize_load_descending_witness :
  0 < 100 /\
  concat (fst (optimize_load [30; 40; 20; 50; 30] 100 (@__init__ Z)))
    = sorted_reverse [30; 40; 20; 50; 30] /\
  sorted_reverse [30; 40; 20; 50; 30] ≡ₚ [30; 40; 20; 50; 30] /\
  StronglySorted (fun x y => y <= x) (sorted_reverse [30; 40; 20; 50; 30]).
Proof.
  split; [lia|].
  apply (optimize_load_descending (@__init__ Z) [30; 40; 20; 50; 30] 100). lia.
Defined.

(** ** The library calls of the queries leave the graph as it is

    Each call on the graph object answers what the search computes from the
    value of the graph, and hands the graph back unchanged: the loops only
    look up neighbours. *)

Section ReadOnly.
Context {W : Type} `{Number W}.
Variable weight : Nx.EdgeData W -> W.
Implicit Types (G : Nx.DiGraph W) (self : EcoShipmentOptimizer W).

Lemma search_loop_call fuel target sd c G :
  Nx.Obj.search_loop weight fuel target sd c G
  = (Nx.search_loop weight fuel (Nx._succ G) target sd c, G).
Proof.
  revert sd c. induction fuel as [|fuel IH]; intros sd c; [done|].
  cbn [Nx.Obj.search_loop Nx.search_loop].
  destruct (Nx.heappop (Nx.fringe sd)) as [[[[d k] v] rest]|]; [|done].
  destruct (Nx.dist sd !! v); [apply IH|]. cbn zeta.
  destruct (String.eqb v target); [done|].
  unfold Nx.Obj.bind, Nx.Obj.neighbours. cbn [fst snd Nx.neighs].
  destruct (Nx.relax_all weight v d _ c _) as [[sd' c']|e|]; [apply IH|done..].
Qed.

Lemma dijkstra_multisource_call source target G :
  Nx.Obj.dijkstra_multisource weight source target G
  = (Nx.dijkstra_multisource weight G source target, G).
Proof.
  unfold Nx.Obj.dijkstra_multisource, Nx.dijkstra_multisource, Nx.Obj.bind,
    Nx.Obj.entries. cbn [fst snd Nx.neighs]. apply search_loop_call.
Qed.

Lemma dijkstra_path_length_call source target G :
  Nx.Obj.dijkstra_path_length weight source target G
  = (Nx.dijkstra_path_length weight G source target, G).
Proof.
  unfold Nx.Obj.dijkstra_path_length, Nx.dijkstra_path_length, Nx.Obj.bind,
    Nx.Obj.contains. cbn [fst snd].
  destruct (negb (Nx.has_node G source)); [done|].
  destruct (String.eqb source target); [done|].
  by rewrite dijkstra_multisource_call.
Qed.

Lemma bi_loop_call fuel backward st c G :
  Nx.Obj.bi_loop weight fuel backward st c G
  = (Nx.bi_loop weight fuel G backward st c, G).
Proof.
  revert backward st c. induction fuel as [|fuel IH]; intros backward st c; [done|].
  cbn [Nx.Obj.bi_loop Nx.bi_loop].
  destruct (Nx.fringe (Nx.fwd st)) as [|x0 f0]; [done|].
  destruct (Nx.fringe (Nx.bwd st)) as [|x1 f1]; [done|]. cbn zeta.
  destruct (Nx.heappop (Nx.fringe (Nx.side_of st backward)))
    as [[[[d k] v] rest]|]; [|done].
  destruct (Nx.dist (Nx.side_of st backward) !! v); [apply IH|].
  destruct (Nx.dist _ !! v); [by destruct (Nx.final _)|].
  unfold Nx.Obj.bind, Nx.Obj.neighbours. cbn [fst snd].
  destruct (Nx.bi_relax_all weight backward v d _ c _) as [[st' c']|e|];
    [apply IH|done..].
Qed.

Lemma bidirectional_dijkstra_call source target G :
  Nx.Obj.bidirectional_dijkstra weight source target G
  = (Nx.bidirectional_dijkstra weight G source target, G).
Proof.
  unfold Nx.Obj.bidirectional_dijkstra, Nx.bidirectional_dijkstra, Nx.Obj.bind,
    Nx.Obj.contains, Nx.Obj.entries. cbn [fst snd Nx.neighs].
  destruct (Nx.has_node G source); cbn [negb orb fst snd]; [|done].
  destruct (Nx.has_node G target); cbn [negb orb fst snd]; [|done].
  destruct (String.eqb source target); [done|]. apply bi_loop_call.
Qed.

End ReadOnly.

Section QueriesRun.
Context {W : Type} `{Number W}.
Implicit Types (G : Nx.DiGraph W) (self : EcoShipmentOptimizer W).

Lemma shortest_path_call source target a G :
  Nx.Obj.shortest_path source target a G = (Nx.shortest_path G source target a, G).
Proof.
  unfold Nx.Obj.shortest_path, Nx.shortest_path, Nx.Obj.bind.
  rewrite bidirectional_dijkstra_call. cbn [fst snd].
  by destruct (Nx.bidirectional_dijkstra _ G source target) as [[fd fp]|e|].
Qed.

Lemma shortest_path_length_call source target a G :
  Nx.Obj.shortest_path_length source target a G
  = (Nx.shortest_path_length G source target a, G).
Proof. apply dijkstra_path_length_call. Qed.

(** A query answers from the value of the graph and gives the object back
    as it was. *)
Lemma min_path_run a source target self :
  calculate_min_path a source target self
  = (min_path_of a (graph self) source target, self).
Proof.
  unfold calculate_min_path, on_graph, min_path_of, Nx.Obj.bind.
  rewrite shortest_path_call. cbn [fst snd].
  destruct (Nx.shortest_path (graph self) source target a) as [path|e|].
  - rewrite shortest_path_length_call. cbn [fst snd]. by destruct self.
  - destruct e; by destruct self.
  - by destruct self.
Qed.

Lemma emission_run source target self :
  calculate_min_emission_path source target self
  = (min_path_of Nx.Emission (graph self) source target, self).
Proof. apply (min_path_run Nx.Emission). Qed.

Lemma cost_run source target self :
  calculate_min_cost_path source target self
  = (min_path_of Nx.Cost (graph self) source target, self).
Proof. apply (min_path_run Nx.Cost). Qed.

End QueriesRun.

(** C8: a path query leaves the object it was called on as it was, graph
    included, although the library it calls has the graph in its hands; and
    the plans of the load planner depend on the demands and the capacity
    alone, not on the object or on what was called on it before. *)
Theorem queries_read_only {W : Type} `{Number W}
    (self : EcoShipmentOptimizer W) (source target : Nx.node) :
  snd (calculate_min_emission_path source target self) = self /\
  snd (calculate_min_cost_path source target self) = self /\
  forall (D : list Z) (C : Z),
    snd (optimize_load D C self) = self /\
    forall self' : EcoShipmentOptimizer W,
      fst (optimize_load D C self') = fst (optimize_load D C self).
Proof.
  split; [by rewrite emission_run|]. split; [by rewrite cost_run|]. done.
Qed.

(** ** Order and arithmetic from the laws *)

Section Order.
Context {W : Type} `{NumberLaws W}.
Implicit Types a b c d : W.

Lemma le_refl a : num_le a a.
Proof. apply num_lt_irrefl. Qed.

Lemma lt_cases a b : num_lt a b = true \/ a = b \/ num_lt b a = true.
Proof.
  destruct (num_lt a b) eqn:Hab; [by left|].
  destruct (num_lt b a) eqn:Hba; [by right; right|].
  right; left. by apply num_lt_total.
Qed.

Lemma lt_le a b : num_lt a b = true -> num_le a b.
Proof.
  intros Hab. unfold num_le. destruct (num_lt b a) eqn:Hba; [|done].
  by rewrite <- (num_lt_irrefl a), (num_lt_trans a b a).
Qed.

Lemma le_cases a b : num_le a b -> num_lt a b = true \/ a = b.
Proof. intros Hle. destruct (lt_cases a b) as [?|[?|Hba]]; auto. congruence. Qed.

Lemma le_trans a b c : num_le a b -> num_le b c -> num_le a c.
Proof.
  intros Hab Hbc. unfold num_le.
  destruct (num_lt c a) eqn:Hca; [|done].
  destruct (le_cases _ _ Hab) as [Hlt| ->]; [|congruence].
  pose proof (num_lt_trans _ _ _ Hca Hlt). congruence.
Qed.

Lemma le_antisym a b : num_le a b -> num_le b a -> a = b.
Proof. intros Hab Hba. by apply num_lt_total. Qed.

Lemma add_mono_r a b c : num_le a b -> num_le (num_add c a) (num_add c b).
Proof. intros Hab. rewrite !(num_add_comm c). by apply num_add_mono. Qed.

Lemma add_mono2 a b c d : num_le a b -> num_le c d -> num_le (num_add a c) (num_add b d).
Proof.
  intros Hab Hcd. apply (le_trans _ (num_add b c)).
  - by apply num_add_mono.
  - by apply add_mono_r.
Qed.

Lemma add_nonneg a c : num_le num_zero c -> num_le a (num_add a c).
Proof. intros Hc. rewrite <- (num_add_zero_r a) at 1. by apply add_mono_r. Qed.

Lemma add_swap a b c : num_add (num_add a c) b = num_add a (num_add b c).
Proof. by rewrite <- num_add_assoc, (num_add_comm c b). Qed.

End Order.

#[export] Instance Z_NumberLaws : NumberLaws Z.
Proof.
  split; unfold num_le; simpl; intros; lia.
Qed.

(** ** The heap *)

Section Heap.
Context {W : Type} `{Number W}.
Implicit Types heap rest : list (@Nx.entry W).

Lemma heappop_None heap : Nx.heappop heap = None <-> heap = [].
Proof.
  destruct heap as [|x heap]; simpl; [done|].
  destruct (Nx.heappop heap) as [[y r]|]; [|done].
  by destruct (Nx.entry_lt y x).
Qed.

Lemma heappop_perm heap m rest : Nx.heappop heap = Some (m, rest) -> heap ≡ₚ m :: rest.
Proof.
  revert m rest. induction heap as [|x heap IH]; intros m rest; simpl; [done|].
  destruct (Nx.heappop heap) as [[y r]|] eqn:Hpop.
  - destruct (Nx.entry_lt y x); intros [= <- <-]; [|done].
    rewrite (IH y r eq_refl). apply Permutation_swap.
  - apply heappop_None in Hpop as ->. by intros [= <- <-].
Qed.

Lemma heappop_length heap m rest :
  Nx.heappop heap = Some (m, rest) -> length heap = S (length rest).
Proof. intros Hpop. by rewrite (heappop_perm _ _ _ Hpop). Qed.

Lemma heappop_min `{!NumberLaws W} heap m rest :
  Nx.heappop heap = Some (m, rest) ->
  forall e, e ∈ heap -> num_le (fst (fst m)) (fst (fst e)).
Proof.
  revert m rest. induction heap as [|x heap IH]; intros m rest; simpl; [done|].
  destruct (Nx.heappop heap) as [[y r]|] eqn:Hpop.
  - specialize (IH y r eq_refl).
    destruct x as [[dx cx] vx], y as [[dy cy] vy]. simpl.
    destruct (num_eq dy dx) eqn:Heq.
    + apply num_eq_spec in Heq as ->.
      destruct (cy <? cx)%nat; intros [= <- <-] e [->|He]%elem_of_cons;
        simpl; auto using le_refl; by apply (IH e).
    + destruct (num_lt dy dx) eqn:Hlt; intros [= <- <-] e [->|He]%elem_of_cons; simpl.
      * by apply lt_le.
      * by apply (IH e).
      * apply le_refl.
      * apply (le_trans _ dy); [done|]. by apply (IH e).
  - apply heappop_None in Hpop as ->.
    intros [= <- <-] e [->|He]%elem_of_cons; [apply le_refl|].
    by apply elem_of_nil in He.
Qed.

End Heap.

(** ** The budget of a search *)

Section Budget.
Context {W : Type}.
Implicit Types (adj : Nx.adjacency W) (dist : gmap Nx.node W).

Lemma items_cons {A} k (x : list A) (l : list (Nx.node * list A)) v :
  Nx.items ((k, x) :: l) v = if String.eqb k v then x else Nx.items l v.
Proof. unfold Nx.items. simpl. by destruct (String.eqb k v). Qed.

Lemma pending_insert_le adj dist v (d : W) :
  (pending adj (<[v := d]> dist) <= pending adj dist)%nat.
Proof.
  unfold pending. induction adj as [|[k nb] l IH]; simpl; [done|].
  destruct (decide (v = k)) as [->|Hne].
  - rewrite lookup_insert_eq. destruct (dist !! k); lia.
  - rewrite lookup_insert_ne by done. destruct (dist !! k); lia.
Qed.

(** Giving [v] its final distance pays for the entries its edges may push. *)
Lemma pending_insert adj dist v (d : W) :
  dist !! v = None ->
  (pending adj (<[v := d]> dist) + length (Nx.items adj v) <= pending adj dist)%nat.
Proof.
  intros Hv. induction adj as [|[k nb] l IH]; [done|].
  rewrite items_cons. pose proof (pending_insert_le l dist v d) as Hle.
  unfold pending in *. simpl.
  destruct (String.eqb_spec k v) as [->|Hne].
  - rewrite lookup_insert_eq, Hv. lia.
  - rewrite lookup_insert_ne by done. destruct (dist !! k); lia.
Qed.

Lemma pending_empty adj : pending adj (∅ : gmap Nx.node W) = Nx.edge_count adj.
Proof.
  unfold pending, Nx.edge_count. induction adj as [|[k nb] l IH]; simpl; [done|].
  by rewrite lookup_empty, IH.
Qed.

End Budget.

(** ** One side of a search *)

Section Side.
Context {W : Type} `{NumberLaws W}.
Variables (adj : Nx.adjacency W) (weight : Nx.EdgeData W -> W) (root : Nx.node).
Hypothesis adj_nonneg : forall v u e, (u, e) ∈ Nx.items adj v -> num_le num_zero (weight e).

Abbreviation walk := (Nx.walk adj weight root).
Abbreviation inv := (side_inv adj weight root).

Lemma walk_nonneg v p w : walk v p w -> num_le num_zero w.
Proof.
  induction 1 as [|v p w u e _ IH Hin]; [apply le_refl|].
  apply (le_trans _ w); [done|]. apply add_nonneg. by eapply adj_nonneg.
Qed.

Lemma walk_last v p w : walk v p w -> last p = Some v.
Proof. destruct 1; [done|]. apply last_snoc. Qed.

(** The root is seen from the start, at a distance that is at most zero. *)
Lemma inv_root cur todo sd :
  inv cur todo sd -> exists s0, Nx.seen sd !! root = Some s0 /\ num_le s0 num_zero.
Proof.
  intros Hinv. destruct (Nx.dist sd !! root) as [d|] eqn:Hd.
  - exists d. split; [by eapply inv_dist_seen|].
    eapply inv_dist_opt; [done..|]. constructor.
  - destruct (inv_started _ _ _ _ _ _ Hinv Hd) as [c ->]. exists num_zero.
    split; [apply lookup_singleton_eq | apply le_refl].
Qed.

(** A walk that ends outside the final distances has crossed their border:
    it is at least as long as the seen distance of some node that is still
    waiting in the fringe, or it went through the node under relaxation. *)
Lemma frontier cur todo sd x q w :
  inv cur todo sd -> walk x q w -> Nx.dist sd !! x = None ->
  (exists x' sx', Nx.dist sd !! x' = None /\ Nx.seen sd !! x' = Some sx' /\ num_le sx' w) \/
  (todo <> [] /\ exists dcur, Nx.dist sd !! cur = Some dcur /\ num_le dcur w).
Proof.
  intros Hinv Hwalk. induction Hwalk as [|v p w u e Hwalk IH Hin]; intros Hx.
  - left. destruct (inv_root _ _ _ Hinv) as (s0 & Hs0 & Hle). by exists root, s0.
  - assert (Hstep : num_le w (num_add w (weight e)))
      by (apply add_nonneg; by eapply adj_nonneg).
    destruct (Nx.dist sd !! v) as [dv|] eqn:Hv.
    + pose proof (inv_dist_opt _ _ _ _ _ _ Hinv _ _ Hv _ _ Hwalk) as Hopt.
      destruct (inv_closed _ _ _ _ _ _ Hinv _ _ _ _ Hv Hin) as [[-> Htodo]|(su & Hsu & Hle)].
      * right. split; [by destruct todo; [apply elem_of_nil in Htodo|]|].
        exists dv. split; [done|]. by apply (le_trans _ w).
      * left. exists u, su. repeat split; [done..|].
        apply (le_trans _ _ _ Hle). by apply num_add_mono.
    + destruct (IH eq_refl) as [(x' & sx' & ? & ? & Hle)|(Hne & dcur & ? & Hle)].
      * left. exists x', sx'. repeat split; [done..|]. by apply (le_trans _ w).
      * right. split; [done|]. exists dcur. split; [done|]. by apply (le_trans _ w).
Qed.

(** Between two turns, every walk to a node without a final distance is at
    least as long as some entry of the fringe. *)
Lemma frontier_fringe cur sd x q w :
  inv cur [] sd -> walk x q w -> Nx.dist sd !! x = None ->
  exists d c u, (d, c, u) ∈ Nx.fringe sd /\ num_le d w.
Proof.
  intros Hinv Hwalk Hx.
  destruct (frontier _ _ _ _ _ _ Hinv Hwalk Hx) as [(x' & sx' & Hd & Hs & Hle)|[? _]]; [|done].
  destruct (inv_fringe_has _ _ _ _ _ _ Hinv _ _ Hs Hd) as [c Hc]. by exists sx', c, x'.
Qed.

(** *** Popping the fringe *)

Lemma init_side_pop c0 d c v rest :
  Nx.heappop (Nx.fringe (Nx.init_side (W:=W) root c0)) = Some ((d, c, v), rest) ->
  d = num_zero /\ c = c0 /\ v = root /\ rest = [].
Proof. simpl. by intros [= <- <- <- <-]. Qed.

Lemma pop_skip cur sd d c v rest dv :
  inv cur [] sd -> Nx.heappop (Nx.fringe sd) = Some ((d, c, v), rest) ->
  Nx.dist sd !! v = Some dv -> inv cur [] (Nx.set_fringe sd rest).
Proof.
  intros [Hsw Hds Hopt Hcl Htodo Hfh Hfs Hst Hmono Hlast] Hpop Hv.
  pose proof (heappop_perm _ _ _ Hpop) as Hperm.
  split; simpl; try done.
  - intros u su Hu Hdu. destruct (Hfh u su Hu Hdu) as [c' Hc']. exists c'.
    rewrite Hperm in Hc'. apply elem_of_cons in Hc' as [[= -> -> ->]|]; [congruence|done].
  - intros d' c' u Hin. apply (Hfs d' c' u). rewrite Hperm. by apply elem_of_cons; right.
  - intros Hroot. destruct (Hst Hroot) as [c0 ->].
    apply init_side_pop in Hpop as (_ & _ & -> & _). simpl in Hv.
    by rewrite lookup_empty in Hv.
  - intros v' dv' d' c' u Hv' Hin. apply (Hmono v' dv' d' c' u Hv').
    rewrite Hperm. by apply elem_of_cons; right.
Qed.

Lemma pop_final cur sd d c v rest :
  inv cur [] sd -> Nx.heappop (Nx.fringe sd) = Some ((d, c, v), rest) ->
  Nx.dist sd !! v = None -> inv v (Nx.items adj v) (Nx.set_dist sd v d rest).
Proof.
  intros Hinv Hpop Hv.
  pose proof (heappop_perm _ _ _ Hpop) as Hperm.
  pose proof (heappop_min _ _ _ Hpop) as Hmin. simpl in Hmin.
  assert (Hseen : Nx.seen sd !! v = Some d).
  { destruct (inv_fringe_seen _ _ _ _ _ _ Hinv d c v) as (su & Hsu & Hle).
    { rewrite Hperm. apply elem_of_cons; by left. }
    destruct (inv_fringe_has _ _ _ _ _ _ Hinv _ _ Hsu Hv) as [c' Hc'].
    rewrite Hsu. f_equal. apply le_antisym; [done|]. apply (Hmin _ Hc'). }
  assert (Hbest : forall q w, walk v q w -> num_le d w).
  { intros q w Hwalk.
    destruct (frontier_fringe _ _ _ _ _ Hinv Hwalk Hv) as (d' & c' & u & Hin & Hle).
    apply (le_trans _ d'); [|done]. apply (Hmin _ Hin). }
  destruct Hinv as [Hsw Hds Hopt Hcl Htodo Hfh Hfs Hst Hmono Hlast].
  split; simpl; try done.
  - intros v' d' [[<- <-]|[Hne Hv']]%lookup_insert_Some; [done|]. by apply Hds.
  - intros v' d' [[<- <-]|[Hne Hv']]%lookup_insert_Some; [done|]. by apply Hopt.
  - intros v' d' u e [[<- <-]|[Hne Hv']]%lookup_insert_Some Hin; [by left|].
    destruct (Hcl v' d' u e Hv' Hin) as [[_ Hnil]|?]; [|by right].
    by apply elem_of_nil in Hnil.
  - intros u su Hu [Hdu Hne]%lookup_insert_None.
    destruct (Hfh u su Hu Hdu) as [c' Hc']. exists c'.
    rewrite Hperm in Hc'. apply elem_of_cons in Hc' as [[= -> -> ->]|]; done.
  - intros d' c' u Hin. apply (Hfs d' c' u). rewrite Hperm. by apply elem_of_cons; right.
  - intros [Hroot Hne]%lookup_insert_None. destruct (Hst Hroot) as [c0 ->].
    by apply init_side_pop in Hpop as (_ & _ & -> & _).
  - intros v' dv' d' c' u [[<- <-]|[Hne Hv']]%lookup_insert_Some Hin.
    + apply (Hmin (d', c', u)). rewrite Hperm. by apply elem_of_cons; right.
    + apply (Hmono v' dv' d' c' u Hv'). rewrite Hperm. by apply elem_of_cons; right.
  - intros dcur v' dv'. rewrite lookup_insert_eq. intros [= <-].
    intros [[<- <-]|[Hne Hv']]%lookup_insert_Some; [apply le_refl|].
    apply (Hmono v' dv' d c v Hv'). rewrite Hperm. apply elem_of_cons; by left.
Qed.

(** Until the root has its final distance, the root is what is popped. *)
Lemma pop_root cur sd d c v rest :
  inv cur [] sd -> Nx.heappop (Nx.fringe sd) = Some ((d, c, v), rest) ->
  Nx.dist sd !! root = None -> v = root /\ Nx.dist sd = ∅.
Proof.
  intros Hinv Hpop Hroot. destruct (inv_started _ _ _ _ _ _ Hinv Hroot) as [c0 ->].
  by apply init_side_pop in Hpop as (_ & _ & -> & _).
Qed.

Lemma fringe_nonempty_init cur sd :
  inv cur [] sd -> Nx.fringe sd = [] -> is_Some (Nx.dist sd !! root).
Proof.
  intros Hinv Hnil. destruct (Nx.dist sd !! root) eqn:Hroot; [done|].
  destruct (inv_started _ _ _ _ _ _ Hinv Hroot) as [c0 ->]. done.
Qed.

(** *** Relaxing an edge *)

(** The walk to [v] that the search recorded, extended by an edge of [v]. *)
Lemma inv_walk_edge cur todo sd v d u e :
  inv cur todo sd -> Nx.dist sd !! v = Some d -> (u, e) ∈ Nx.items adj v ->
  exists pv, Nx.paths sd !! v = Some pv /\
             walk u (pv ++ [u]) (num_add d (weight e)).
Proof.
  intros Hinv Hv Hin.
  destruct (inv_seen_walk _ _ _ _ _ _ Hinv v d) as (pv & Hpv & Hwalk);
    [by eapply inv_dist_seen|].
  exists pv. split; [done|]. by eapply Nx.walk_step.
Qed.

(** With non-negative weights the check for contradictory paths never fires. *)
Lemma relax_no_error v todo sd d u e du :
  inv v ((u, e) :: todo) sd -> Nx.dist sd !! v = Some d -> Nx.dist sd !! u = Some du ->
  num_lt (num_add d (weight e)) du = false.
Proof.
  intros Hinv Hv Hu.
  destruct (inv_walk_edge _ _ _ v d u e Hinv Hv) as (pv & _ & Hwalk).
  { eapply inv_todo; [done|]. apply elem_of_cons; by left. }
  by apply (inv_dist_opt _ _ _ _ _ _ Hinv _ _ Hu _ _ Hwalk).
Qed.

Lemma inv_edge_done v todo sd d u e su :
  inv v ((u, e) :: todo) sd -> Nx.dist sd !! v = Some d ->
  Nx.seen sd !! u = Some su -> num_le su (num_add d (weight e)) ->
  inv v todo sd.
Proof.
  intros [Hsw Hds Hopt Hcl Htodo Hfh Hfs Hst Hmono Hlast] Hv Hu Hle.
  split; try done.
  - intros v' d' u' e' Hv' Hin.
    destruct (Hcl v' d' u' e' Hv' Hin) as [[-> [[= -> ->]|Ht]%elem_of_cons]|?];
      [|by left|by right].
    right. exists su. split; [done|]. congruence.
  - intros ue Hin. apply Htodo. by apply elem_of_cons; right.
Qed.

Lemma inv_relaxed v todo sd c d u e :
  inv v ((u, e) :: todo) sd -> Nx.dist sd !! v = Some d -> Nx.dist sd !! u = None ->
  (forall su, Nx.seen sd !! u = Some su -> num_lt (num_add d (weight e)) su = true) ->
  inv v todo (Nx.relaxed sd c v u (num_add d (weight e))).
Proof.
  intros Hinv Hv Hu Hless.
  destruct (inv_walk_edge _ _ _ v d u e Hinv Hv) as (pv & Hpv & Hwalk).
  { eapply inv_todo; [done|]. apply elem_of_cons; by left. }
  destruct Hinv as [Hsw Hds Hopt Hcl Htodo Hfh Hfs Hst Hmono Hlast].
  split; simpl; try done.
  - intros u' su' [[<- <-]|[Hne Hu']]%lookup_insert_Some.
    + exists (pv ++ [u]). rewrite Hpv. simpl. by rewrite lookup_insert_eq.
    + rewrite lookup_insert_ne by done. by apply Hsw.
  - intros v' d' Hv'. rewrite lookup_insert_ne by congruence. by apply Hds.
  - intros v' d' u' e' Hv' Hin.
    destruct (Hcl v' d' u' e' Hv' Hin) as [[-> [[= -> ->]|Ht]%elem_of_cons]|(su & Hsu & Hle)].
    + right. exists (num_add d (weight e)). rewrite lookup_insert_eq.
      split; [done|]. replace d' with d by congruence. apply le_refl.
    + by left.
    + right. destruct (decide (u = u')) as [<-|Hne].
      * exists (num_add d (weight e)). rewrite lookup_insert_eq. split; [done|].
        apply (le_trans _ su); [|done]. apply lt_le. by apply Hless.
      * exists su. by rewrite lookup_insert_ne.
  - intros ue Hin. apply Htodo. by apply elem_of_cons; right.
  - intros u' su' [[<- <-]|[Hne Hu']]%lookup_insert_Some Hdu'.
    + exists c. apply elem_of_app; right. by apply list_elem_of_singleton.
    + destruct (Hfh u' su' Hu' Hdu') as [c' Hc']. exists c'. apply elem_of_app; by left.
  - intros d' c' u' [Hin|[= -> -> ->]%list_elem_of_singleton]%elem_of_app.
    + destruct (Hfs d' c' u' Hin) as (su & Hsu & Hle).
      destruct (decide (u = u')) as [<-|Hne].
      * exists (num_add d (weight e)). rewrite lookup_insert_eq. split; [done|].
        apply (le_trans _ su); [|done]. apply lt_le. by apply Hless.
      * exists su. by rewrite lookup_insert_ne.
    + exists (num_add d (weight e)). rewrite lookup_insert_eq. split; [done|apply le_refl].
  - intros Hroot. destruct (Hst Hroot) as [c0 ->]. simpl in Hv.
    by rewrite lookup_empty in Hv.
  - intros v' dv' d' c' u' Hv' [Hin|[= -> -> ->]%list_elem_of_singleton]%elem_of_app.
    + by apply (Hmono v' dv' d' c' u').
    + apply (le_trans _ d); [by apply (Hlast d v' dv')|].
      apply add_nonneg. eapply adj_nonneg. apply Htodo. apply elem_of_cons; by left.
Qed.

(** The three ways an edge can go, when nothing is raised. *)
Lemma relax_inv v todo sd c d u e :
  inv v ((u, e) :: todo) sd -> Nx.dist sd !! v = Some d ->
  (Nx.relax weight v d sd c (u, e) = Return (sd, c, false) /\ inv v todo sd) \/
  (Nx.relax weight v d sd c (u, e)
     = Return (Nx.relaxed sd c v u (num_add d (weight e)), S c, true) /\
   Nx.dist sd !! u = None /\
   inv v todo (Nx.relaxed sd c v u (num_add d (weight e)))).
Proof.
  intros Hinv Hv. unfold Nx.relax.
  destruct (Nx.dist sd !! u) as [du|] eqn:Hu.
  - rewrite (relax_no_error _ _ _ _ _ _ _ Hinv Hv Hu). left. split; [done|].
    apply (inv_edge_done _ _ _ d u e du Hinv Hv); [by eapply inv_dist_seen|].
    by apply (relax_no_error _ _ _ _ _ _ _ Hinv Hv Hu).
  - destruct (Nx.seen sd !! u) as [su|] eqn:Hsu.
    + destruct (num_lt (num_add d (weight e)) su) eqn:Hlt.
      * right. split; [done|]. split; [done|].
        apply inv_relaxed; try done. congruence.
      * left. split; [done|]. by apply (inv_edge_done _ _ _ d u e su Hinv Hv).
    + right. split; [done|]. split; [done|].
      apply inv_relaxed; try done. congruence.
Qed.

(** *** The single search *)

Lemma relax_all_inv v todo sd c d :
  inv v todo sd -> Nx.dist sd !! v = Some d ->
  exists sd' c',
    Nx.relax_all weight v d sd c todo = Return (sd', c') /\
    inv v [] sd' /\ Nx.dist sd' = Nx.dist sd /\
    (length (Nx.fringe sd') <= length (Nx.fringe sd) + length todo)%nat.
Proof.
  revert sd c. induction todo as [|[u e] todo IH]; intros sd c Hinv Hv;
    cbn [Nx.relax_all].
  - exists sd, c. split_and!; [done..|lia].
  - destruct (relax_inv v todo sd c d u e Hinv Hv) as [[-> Hinv']|(-> & _ & Hinv')].
    + destruct (IH sd c Hinv' Hv) as (sd' & c' & -> & ? & ? & ?).
      exists sd', c'. split_and!; [done..|cbn [length]; lia].
    + destruct (IH _ (S c) Hinv' Hv) as (sd' & c' & -> & ? & Hd & Hlen).
      exists sd', c'. split_and!; [done..|].
      simpl in Hlen. unfold Nx.heappush in Hlen. rewrite length_app in Hlen.
      cbn [length] in *. lia.
Qed.

(** What the final state says about a node: a final distance is the weight
    of the recorded walk and of no longer one; with the fringe exhausted, a
    node without a final distance cannot be reached at all. *)
Lemma inv_dist_walk cur todo sd t d :
  inv cur todo sd -> Nx.dist sd !! t = Some d ->
  (exists p, Nx.paths sd !! t = Some p /\ walk t p d) /\
  forall q w, walk t q w -> num_le d w.
Proof.
  intros Hinv Ht. split.
  - eapply inv_seen_walk; [done|]. by eapply inv_dist_seen.
  - by eapply inv_dist_opt.
Qed.

Lemma search_loop_spec fuel target cur sd c :
  inv cur [] sd ->
  (length (Nx.fringe sd) + pending adj (Nx.dist sd) < fuel)%nat ->
  exists sd',
    Nx.search_loop weight fuel adj target sd c = Return sd' /\
    (forall d, Nx.dist sd' !! target = Some d ->
       (exists p, Nx.paths sd' !! target = Some p /\ walk target p d) /\
       forall q w, walk target q w -> num_le d w) /\
    (Nx.dist sd' !! target = None -> forall q w, ~ walk target q w).
Proof.
  revert cur sd c. induction fuel as [|fuel IH]; intros cur sd c Hinv Hfuel; [lia|].
  simpl. destruct (Nx.heappop (Nx.fringe sd)) as [[[[d c0] v] rest]|] eqn:Hpop.
  - pose proof (heappop_length _ _ _ Hpop) as Hlen.
    destruct (Nx.dist sd !! v) as [dv|] eqn:Hv.
    + apply (IH cur); [by eapply pop_skip|]. simpl. lia.
    + pose proof (pop_final _ _ _ _ _ _ Hinv Hpop Hv) as Hinv1.
      destruct (String.eqb_spec v target) as [->|Hne].
      * eexists. split; [done|]. split.
        -- intros d' Hd'. by eapply inv_dist_walk.
        -- simpl. by rewrite lookup_insert_eq.
      * destruct (relax_all_inv v _ _ c d Hinv1) as (sd' & c' & -> & Hinv' & Hd & Hfr).
        { simpl. apply lookup_insert_eq. }
        apply (IH v); [done|]. rewrite Hd. simpl in *.
        pose proof (pending_insert adj (Nx.dist sd) v d Hv). lia.
  - apply heappop_None in Hpop. exists sd. split; [done|]. split.
    + intros d Hd. by eapply inv_dist_walk.
    + intros Ht q w Hwalk.
      destruct (frontier_fringe _ _ _ _ _ Hinv Hwalk Ht) as (d' & c' & u & Hin & _).
      rewrite Hpop in Hin. by apply elem_of_nil in Hin.
Qed.

Lemma init_side_inv c0 : inv root [] (Nx.init_side root c0).
Proof.
  split; simpl.
  - intros u su [<- <-]%lookup_singleton_Some. exists [root].
    split; [apply lookup_singleton_eq|constructor].
  - intros v d. by rewrite lookup_empty.
  - intros v d. by rewrite lookup_empty.
  - intros v d u e. by rewrite lookup_empty.
  - intros ue Hin. by apply elem_of_nil in Hin.
  - intros u su [<- <-]%lookup_singleton_Some _. exists c0. by apply list_elem_of_singleton.
  - intros d c u [= -> -> ->]%list_elem_of_singleton. exists num_zero.
    split; [apply lookup_singleton_eq|apply le_refl].
  - intros _. by exists c0.
  - intros v dv d c u. by rewrite lookup_empty.
  - intros dcur v dv. by rewrite lookup_empty.
Qed.

(** Once some node has the final distance [a0], every node with a walk
    shorter than [a0] has its final distance too. *)
Lemma below_final cur todo sd v0 a0 x q w :
  inv cur todo sd -> Nx.dist sd !! v0 = Some a0 -> (todo <> [] -> cur = v0) ->
  walk x q w -> num_lt w a0 = true ->
  exists dx, Nx.dist sd !! x = Some dx /\ num_le dx w.
Proof.
  intros Hinv Hv0 Hcur Hwalk Hlt.
  destruct (Nx.dist sd !! x) as [dx|] eqn:Hx.
  - exists dx. split; [done|]. by eapply inv_dist_opt.
  - exfalso. assert (Hle : num_le a0 w); [|unfold num_le in Hle; congruence].
    destruct (frontier _ _ _ _ _ _ Hinv Hwalk Hx)
      as [(x' & sx' & Hd & Hs & Hle)|(Hne & dcur & Hdcur & Hle)].
    + destruct (inv_fringe_has _ _ _ _ _ _ Hinv _ _ Hs Hd) as [c Hc].
      apply (le_trans _ sx'); [|done]. by eapply inv_mono.
    + rewrite (Hcur Hne) in Hdcur. congruence.
Qed.

End Side.

(** ** Where the two searches meet *)

Section Meeting.
Context {W : Type} `{NumberLaws W}.
Variables (adjX adjY : Nx.adjacency W) (weight : Nx.EdgeData W -> W) (rX rY : Nx.node).
Hypothesis reversed : forall u v e, (v, e) ∈ Nx.items adjX u <-> (u, e) ∈ Nx.items adjY v.
Hypothesis nonnegX : forall v u e, (u, e) ∈ Nx.items adjX v -> num_le num_zero (weight e).
Hypothesis nonnegY : forall v u e, (u, e) ∈ Nx.items adjY v -> num_le num_zero (weight e).

(** Side [X] has just given [v] the final distance [a], side [Y] gave it
    [b] earlier, and [fd] is at most the sum of the two seen distances of
    every node that both sides have seen. *)
Variables (sdX sdY : @Nx.side W) (v curY : Nx.node)
  (todo : list (Nx.node * Nx.EdgeData W)) (a b fd : W).
Hypothesis HX : side_inv adjX weight rX v todo sdX.
Hypothesis HY : side_inv adjY weight rY curY [] sdY.
Hypothesis Ha : Nx.dist sdX !! v = Some a.
Hypothesis Hb : Nx.dist sdY !! v = Some b.
Hypothesis Hmeet : forall w a' b',
  Nx.seen sdX !! w = Some a' -> Nx.seen sdY !! w = Some b' -> num_le fd (num_add a' b').

Lemma meet_final_X x q w :
  Nx.walk adjX weight rX x q w -> num_lt w a = true ->
  exists dx, Nx.seen sdX !! x = Some dx /\ num_le dx w.
Proof.
  intros Hwalk Hlt.
  destruct (below_final adjX weight rX nonnegX v todo sdX v a x q w) as (dx & Hdx & Hle);
    try done.
  exists dx. split; [|done]. by eapply inv_dist_seen.
Qed.

Lemma meet_final_Y x q w :
  Nx.walk adjY weight rY x q w -> num_lt w b = true ->
  exists dx, Nx.dist sdY !! x = Some dx /\ num_le dx w.
Proof.
  intros Hwalk Hlt.
  by apply (below_final adjY weight rY nonnegY curY [] sdY v b x q w).
Qed.

Lemma meet_through_v : num_le fd (num_add a b).
Proof. apply (Hmeet v); by eapply inv_dist_seen. Qed.

Lemma meeting_aux x p fx :
  Nx.walk adjX weight rX x p fx ->
  forall q bx, Nx.walk adjY weight rY x q bx -> num_lt bx b = true ->
    num_le fd (num_add fx bx).
Proof.
  induction 1 as [|y p fy x e Hwalk IH Hin]; intros q bx Hq Hlt.
  - destruct (meet_final_Y _ _ _ Hq Hlt) as (dx & Hdx & Hle).
    destruct (inv_root adjX weight rX v todo sdX HX) as (s0 & Hs0 & Hle0).
    apply (le_trans _ (num_add s0 dx)).
    + apply (Hmeet rX); [done|]. by eapply inv_dist_seen.
    + by apply add_mono2.
  - assert (HinY : (y, e) ∈ Nx.items adjY x) by (by apply reversed).
    assert (Hqy : Nx.walk adjY weight rY y (q ++ [y]) (num_add bx (weight e)))
      by (by eapply Nx.walk_step).
    rewrite add_swap.
    destruct (num_lt (num_add bx (weight e)) b) eqn:Hby; [by eapply IH|].
    destruct (num_lt fy a) eqn:Hfy.
    + destruct (meet_final_X _ _ _ Hwalk Hfy) as (dy & Hdy & Hley).
      destruct (meet_final_Y _ _ _ Hq Hlt) as (dx & Hdx & Hlex).
      destruct (inv_closed _ _ _ _ _ _ HY _ _ _ _ Hdx HinY) as [[_ Hnil]|(su & Hsu & Hle)];
        [by apply elem_of_nil in Hnil|].
      apply (le_trans _ (num_add dy su)); [by apply (Hmeet y)|].
      apply add_mono2; [done|]. apply (le_trans _ _ _ Hle). by apply num_add_mono.
    + apply (le_trans _ _ _ meet_through_v). by apply add_mono2.
Qed.

(** No walk from the root of [X] to the root of [Y] is shorter than [fd]. *)
Lemma meeting q L : Nx.walk adjX weight rX rY q L -> num_le fd L.
Proof.
  intros Hwalk. rewrite <- (num_add_zero_r L).
  destruct (num_lt num_zero b) eqn:Hb0.
  - eapply meeting_aux; [done| |done]. constructor.
  - destruct (inv_root adjY weight rY curY [] sdY HY) as (s0 & Hs0 & Hle0).
    destruct (num_lt L a) eqn:HL.
    + destruct (meet_final_X _ _ _ Hwalk HL) as (dx & Hdx & Hle).
      apply (le_trans _ (num_add dx s0)); [by apply (Hmeet rY)|]. by apply add_mono2.
    + apply (le_trans _ _ _ meet_through_v). by apply add_mono2.
Qed.

End Meeting.

(** ** Walks in both directions *)

Section Join.
Context {W : Type} `{NumberLaws W}.
Variables (adjA adjB : Nx.adjacency W) (weight : Nx.EdgeData W -> W).
Hypothesis reversed : forall u v e, (v, e) ∈ Nx.items adjA u <-> (u, e) ∈ Nx.items adjB v.

Lemma reverse_last {A} (l : list A) (y : A) :
  last l = Some y -> reverse l = y :: tail (reverse l).
Proof.
  intros Hl. destruct l as [|x l _] using rev_ind; [done|].
  rewrite last_snoc in Hl. injection Hl as ->. by rewrite reverse_snoc.
Qed.

(** A walk of [adjA] from [rA] and a walk of the reversed edges from [rB]
    that end in the same node join into a walk from [rA] to [rB]. *)
Lemma walk_join rA rB x pb b :
  Nx.walk adjB weight rB x pb b ->
  forall pa a, Nx.walk adjA weight rA x pa a ->
    Nx.walk adjA weight rA rB (pa ++ tail (reverse pb)) (num_add a b).
Proof.
  induction 1 as [|y pb b x e Hwalk IH Hin]; intros pa a Ha.
  - simpl. by rewrite app_nil_r, num_add_zero_r.
  - rewrite reverse_snoc. simpl.
    assert (Hstep : Nx.walk adjA weight rA y (pa ++ [y]) (num_add a (weight e))).
    { eapply Nx.walk_step; [done|]. by apply reversed. }
    specialize (IH _ _ Hstep).
    rewrite (reverse_last pb y) by (by eapply walk_last).
    by rewrite <- app_assoc, add_swap in IH.
Qed.

End Join.

(** ** The bidirectional search *)

Section Bidirectional.
Context {W : Type} `{NumberLaws W}.
Variables (G : Nx.DiGraph W) (weight : Nx.EdgeData W -> W) (source target : Nx.node).
Hypothesis G_reversed : forall u v e,
  (v, e) ∈ Nx.items (Nx._succ G) u <-> (u, e) ∈ Nx.items (Nx._pred G) v.
Hypothesis G_nonneg : forall u v e,
  (v, e) ∈ Nx.items (Nx._succ G) u -> num_le num_zero (weight e).
Hypothesis source_target : source <> target.

Abbreviation adj := (Nx.neighs G).
Abbreviation root := (root_of source target).
Abbreviation mid := (bi_mid G weight source target).
Abbreviation fwalk := (Nx.walk (Nx._succ G) weight source).
Abbreviation bwalk := (Nx.walk (Nx._pred G) weight target).

Lemma adj_nonneg backward v u e :
  (u, e) ∈ Nx.items (adj backward) v -> num_le num_zero (weight e).
Proof. destruct backward; simpl; [rewrite <- G_reversed|]; apply G_nonneg. Qed.

Lemma adj_reversed backward u v e :
  (v, e) ∈ Nx.items (adj backward) u <-> (u, e) ∈ Nx.items (adj (negb backward)) v.
Proof. destruct backward; simpl; [symmetry|]; apply G_reversed. Qed.

(** A walk from the source to the target, read from either end. *)
Lemma walk_from_root backward q L :
  fwalk target q L ->
  exists q', Nx.walk (adj backward) weight (root backward) (root (negb backward)) q' L.
Proof.
  intros Hwalk. destruct backward; simpl; [|by exists q].
  exists ([target] ++ tail (reverse q)).
  rewrite <- (num_add_zero_r L), num_add_comm.
  apply (walk_join (Nx._pred G) (Nx._succ G) weight) with (x := target); [|done|constructor].
  intros u v e. symmetry. apply G_reversed.
Qed.

Lemma put_this (st : @Nx.both W) backward sd : Nx.side_of (Nx.put st backward sd) backward = sd.
Proof. by destruct backward. Qed.

Lemma put_other (st : @Nx.both W) backward sd :
  Nx.side_of (Nx.put st backward sd) (negb backward) = Nx.side_of st (negb backward).
Proof. by destruct backward. Qed.

Lemma put_same (st : @Nx.both W) backward : Nx.put st backward (Nx.side_of st backward) = st.
Proof. by destruct st, backward. Qed.

Lemma meet_sides (st : @Nx.both W) w :
  Nx.fwd (Nx.meet st w) = Nx.fwd st /\ Nx.bwd (Nx.meet st w) = Nx.bwd st.
Proof.
  unfold Nx.meet.
  destruct (Nx.seen (Nx.fwd st) !! w), (Nx.seen (Nx.bwd st) !! w); try done.
  destruct (Nx.final st) as [[fd fp]|]; [|done]. by destruct (num_lt _ fd).
Qed.

Lemma meet_side_of (st : @Nx.both W) w backward :
  Nx.side_of (Nx.meet st w) backward = Nx.side_of st backward.
Proof. destruct (meet_sides st w). by destruct backward. Qed.

(** [meet] either keeps [final], which then is not beaten by the path
    through [w], or replaces it by that strictly shorter path. *)
Lemma meet_final (st : @Nx.both W) w :
  (Nx.final (Nx.meet st w) = Nx.final st /\
   forall a b, Nx.seen (Nx.fwd st) !! w = Some a -> Nx.seen (Nx.bwd st) !! w = Some b ->
     exists fd fp, Nx.final st = Some (fd, fp) /\ num_le fd (num_add a b)) \/
  (exists a b,
     Nx.seen (Nx.fwd st) !! w = Some a /\ Nx.seen (Nx.bwd st) !! w = Some b /\
     Nx.final (Nx.meet st w)
       = Some (num_add a b,
               default [] (Nx.paths (Nx.fwd st) !! w)
                 ++ tail (reverse (default [] (Nx.paths (Nx.bwd st) !! w)))) /\
     forall fd fp, Nx.final st = Some (fd, fp) -> num_le (num_add a b) fd).
Proof.
  unfold Nx.meet.
  destruct (Nx.seen (Nx.fwd st) !! w) as [a|] eqn:Ha; [|by left].
  destruct (Nx.seen (Nx.bwd st) !! w) as [b|] eqn:Hb; [|by left].
  destruct (Nx.final st) as [[fd fp]|] eqn:Hf.
  - destruct (num_lt (num_add a b) fd) eqn:Hlt.
    + right. exists a, b. split_and!; try done.
      intros fd' fp' [= <- <-]. by apply lt_le.
    + left. split; [done|]. intros a' b' [= <-] [= <-]. by exists fd, fp.
  - right. exists a, b. by split_and!.
Qed.

Lemma sides_walks backward v todo cur (st : @Nx.both W) :
  side_inv (adj backward) weight (root backward) v todo (Nx.side_of st backward) ->
  side_inv (adj (negb backward)) weight (root (negb backward)) cur []
    (Nx.side_of st (negb backward)) ->
  (forall u su, Nx.seen (Nx.fwd st) !! u = Some su ->
     exists p, Nx.paths (Nx.fwd st) !! u = Some p /\ fwalk u p su) /\
  (forall u su, Nx.seen (Nx.bwd st) !! u = Some su ->
     exists p, Nx.paths (Nx.bwd st) !! u = Some p /\ bwalk u p su).
Proof.
  intros Hthis Hother.
  destruct backward; simpl in *; split; intros u su Hu; by eapply inv_seen_walk.
Qed.

(** Relaxing an edge into [u] on one side changes, of what the sides have
    seen, the entry of [u] on that side only. *)
Lemma relaxed_seen_other (st : @Nx.both W) backward c v u vu w :
  w <> u ->
  let st1 := Nx.put st backward (Nx.relaxed (Nx.side_of st backward) c v u vu) in
  Nx.seen (Nx.fwd st1) !! w = Nx.seen (Nx.fwd st) !! w /\
  Nx.seen (Nx.bwd st1) !! w = Nx.seen (Nx.bwd st) !! w.
Proof. intros Hne. destruct backward; simpl; by rewrite lookup_insert_ne. Qed.

Lemma relaxed_dists (st : @Nx.both W) backward c v u vu :
  let st1 := Nx.put st backward (Nx.relaxed (Nx.side_of st backward) c v u vu) in
  Nx.dist (Nx.fwd st1) = Nx.dist (Nx.fwd st) /\
  Nx.dist (Nx.bwd st1) = Nx.dist (Nx.bwd st) /\
  Nx.final st1 = Nx.final st.
Proof. by destruct backward. Qed.

Lemma mid_relaxed backward v todo st c d u e :
  mid backward v ((u, e) :: todo) st ->
  side_inv (adj backward) weight (root backward) v todo
    (Nx.relaxed (Nx.side_of st backward) c v u (num_add d (weight e))) ->
  mid backward v todo
    (Nx.meet (Nx.put st backward
                (Nx.relaxed (Nx.side_of st backward) c v u (num_add d (weight e)))) u).
Proof.
  intros [Hthis Hother Hmeet] Hinv'.
  set (vu := num_add d (weight e)) in *.
  set (st1 := Nx.put st backward (Nx.relaxed (Nx.side_of st backward) c v u vu)).
  destruct (relaxed_dists st backward c v u vu) as (Hdf & Hdb & Hfin).
  destruct Hmeet as [Hbound Hwalk Hdisj].
  destruct (meet_sides st1 u) as [Hf Hb].
  split.
  - rewrite meet_side_of. unfold st1. by rewrite put_this.
  - rewrite meet_side_of. unfold st1. by rewrite put_other.
  - split.
    + rewrite Hf, Hb. intros w a b Ha Hb'.
      destruct (decide (w = u)) as [->|Hne].
      * destruct (meet_final st1 u) as [[-> Hkeep]|(a0 & b0 & Ha0 & Hb0 & -> & Hbeat)].
        -- by apply Hkeep.
        -- eexists _, _. split; [done|].
           replace a0 with a by congruence. replace b0 with b by congruence. apply le_refl.
      * destruct (relaxed_seen_other st backward c v u vu w Hne) as [Hsf Hsb].
        fold st1 in Hsf, Hsb. rewrite Hsf in Ha. rewrite Hsb in Hb'.
        destruct (Hbound w a b Ha Hb') as (fd & fp & Hfd & Hle).
        destruct (meet_final st1 u) as [[-> Hkeep]|(a0 & b0 & Ha0 & Hb0 & -> & Hbeat)].
        -- fold st1 in Hfin. rewrite Hfin. by exists fd, fp.
        -- eexists _, _. split; [done|]. apply (le_trans _ fd); [|done].
           apply (Hbeat fd fp). fold st1 in Hfin. by rewrite Hfin.
    + intros fd fp.
      destruct (meet_final st1 u) as [[-> Hkeep]|(a0 & b0 & Ha0 & Hb0 & -> & Hbeat)].
      * fold st1 in Hfin. rewrite Hfin. apply Hwalk.
      * intros [= <- <-].
        assert (Hsides :
          (forall x su, Nx.seen (Nx.fwd st1) !! x = Some su ->
             exists p, Nx.paths (Nx.fwd st1) !! x = Some p /\ fwalk x p su) /\
          (forall x su, Nx.seen (Nx.bwd st1) !! x = Some su ->
             exists p, Nx.paths (Nx.bwd st1) !! x = Some p /\ bwalk x p su)).
        { destruct Hother as [cur Hother].
          apply (sides_walks backward v todo cur st1); unfold st1.
          - by rewrite put_this.
          - by rewrite put_other. }
        destruct Hsides as [Hwf Hwb].
        destruct (Hwf u a0 Ha0) as (pf & -> & Hpf).
        destruct (Hwb u b0 Hb0) as (pb & -> & Hpb). simpl.
        by apply (walk_join (Nx._succ G) (Nx._pred G) weight G_reversed source target u).
    + rewrite Hf, Hb. fold st1 in Hdf, Hdb. rewrite Hdf, Hdb. apply Hdisj.
Qed.

Lemma bi_relax_all_inv backward v todo st c d :
  mid backward v todo st -> Nx.dist (Nx.side_of st backward) !! v = Some d ->
  exists st' c',
    Nx.bi_relax_all weight backward v d st c todo = Return (st', c') /\
    mid backward v [] st' /\
    Nx.dist (Nx.fwd st') = Nx.dist (Nx.fwd st) /\
    Nx.dist (Nx.bwd st') = Nx.dist (Nx.bwd st) /\
    (length (Nx.fringe (Nx.side_of st' backward))
       <= length (Nx.fringe (Nx.side_of st backward)) + length todo)%nat /\
    Nx.fringe (Nx.side_of st' (negb backward)) = Nx.fringe (Nx.side_of st (negb backward)).
Proof.
  revert st c. induction todo as [|[u e] todo IH]; intros st c Hmid Hv;
    cbn [Nx.bi_relax_all].
  - exists st, c. split_and!; [done..|lia|done].
  - destruct (relax_inv (adj backward) weight (root backward) (adj_nonneg backward)
                v todo _ c d u e (mid_this _ _ _ _ _ _ _ _ Hmid) Hv)
      as [[-> Hinv']|(-> & Hu & Hinv')]; cbn [fst].
    + rewrite put_same.
      destruct (IH st c) as (st' & c' & -> & ? & ? & ? & ? & ?); [|done|].
      { destruct Hmid. by split. }
      exists st', c'. split_and!; [done..|cbn [length]; lia|done].
    + pose proof (mid_relaxed _ _ _ _ c d _ _ Hmid Hinv') as Hmid'.
      set (st2 := Nx.meet _ u) in *.
      assert (Hside : Nx.side_of st2 backward
                      = Nx.relaxed (Nx.side_of st backward) c v u (num_add d (weight e)))
        by (unfold st2; by rewrite meet_side_of, put_this).
      assert (Hoside : Nx.side_of st2 (negb backward) = Nx.side_of st (negb backward))
        by (unfold st2; by rewrite meet_side_of, put_other).
      destruct (IH st2 (S c)) as (st' & c' & -> & ? & Hdf & Hdb & Hlen & Hfr); [done| |].
      { by rewrite Hside. }
      destruct (meet_sides (Nx.put st backward
                  (Nx.relaxed (Nx.side_of st backward) c v u (num_add d (weight e)))) u)
        as [Hmf Hmb].
      destruct (relaxed_dists st backward c v u (num_add d (weight e))) as (Hrf & Hrb & _).
      exists st', c'. split_and!; try done.
      * rewrite Hdf. unfold st2. by rewrite Hmf.
      * rewrite Hdb. unfold st2. by rewrite Hmb.
      * rewrite Hside in Hlen. simpl in Hlen. unfold Nx.heappush in Hlen.
        rewrite length_app in Hlen. cbn [length] in *. lia.
      * by rewrite Hfr, Hoside.
Qed.

Lemma mid_flip backward v st :
  mid backward v [] st -> exists cur, mid (negb backward) cur [] st.
Proof.
  intros [Hthis [cur Hother] Hmeet]. exists cur. split; [done| |done].
  exists v. by rewrite negb_involutive.
Qed.

Lemma head_sides backward v st :
  mid backward v [] st ->
  (exists cur, side_inv (Nx._succ G) weight source cur [] (Nx.fwd st)) /\
  (exists cur, side_inv (Nx._pred G) weight target cur [] (Nx.bwd st)).
Proof.
  intros [Hthis [cur Hother] _].
  destruct backward; simpl in *; split; eexists; eassumption.
Qed.

(** While the target can be reached, neither fringe runs empty. *)
Lemma fringes_nonempty backward st q L :
  bi_inv G weight source target backward st -> fwalk target q L ->
  Nx.fringe (Nx.fwd st) <> [] /\ Nx.fringe (Nx.bwd st) <> [].
Proof.
  intros [[cur Hmid] Hturn] Hwalk.
  destruct (head_sides _ _ _ Hmid) as [[cf Hf] [cb Hb]].
  pose proof (mid_meet _ _ _ _ _ _ _ _ Hmid) as Hmeet.
  split; intros Hnil.
  - destruct (Nx.dist (Nx.fwd st) !! target) as [dt|] eqn:Ht.
    + destruct (Nx.dist (Nx.bwd st) !! target) as [dt'|] eqn:Ht'.
      * by eapply meet_disjoint.
      * by apply source_target, eq_sym, (turn_1 _ _ _ _ Hturn Ht' target dt).
    + destruct (frontier_fringe _ _ _ (adj_nonneg false) _ _ _ _ _ Hf Hwalk Ht)
        as (d & c & u & Hin & _).
      rewrite Hnil in Hin. by apply elem_of_nil in Hin.
  - destruct (fringe_nonempty_init _ _ _ _ _ Hb Hnil) as [dt Ht].
    destruct (walk_from_root true q L Hwalk) as [q' Hwalk']. simpl in Hwalk'.
    destruct (Nx.dist (Nx.bwd st) !! source) as [ds|] eqn:Hs.
    + destruct (Nx.dist (Nx.fwd st) !! source) as [ds'|] eqn:Hs'.
      * by eapply meet_disjoint.
      * pose proof (turn_0 _ _ _ _ Hturn Hs'). congruence.
    + destruct (frontier_fringe _ _ _ (adj_nonneg true) _ _ _ _ _ Hb Hwalk' Hs)
        as (d & c & u & Hin & _).
      rewrite Hnil in Hin. by apply elem_of_nil in Hin.
Qed.

(** *** Taking turns *)

Abbreviation turn := (turn_inv source target).

Lemma turn_dists backward (st st' : @Nx.both W) :
  turn backward st ->
  Nx.dist (Nx.fwd st') = Nx.dist (Nx.fwd st) ->
  Nx.dist (Nx.bwd st') = Nx.dist (Nx.bwd st) ->
  turn backward st'.
Proof. intros [? ? ? ?] Hf Hb. split; rewrite ?Hf, ?Hb; done. Qed.

Lemma turn_skip backward st d c v rest dv :
  bi_inv G weight source target backward st ->
  Nx.heappop (Nx.fringe (Nx.side_of st backward)) = Some ((d, c, v), rest) ->
  Nx.dist (Nx.side_of st backward) !! v = Some dv ->
  turn (negb backward) (Nx.put st backward (Nx.set_fringe (Nx.side_of st backward) rest)).
Proof.
  intros [[cur Hmid] [Tf T0 T1 Tb]] Hpop Hv.
  destruct (head_sides _ _ _ Hmid) as [[cf Hf] [cb Hb]].
  destruct backward; simpl in *; split; simpl; try done.
  - intros _ _. destruct (Nx.dist (Nx.bwd st) !! target) eqn:Ht; [done|].
    destruct (pop_root _ _ _ _ _ _ _ _ _ Hb Hpop Ht) as [-> _]. congruence.
  - intros _. destruct (Nx.dist (Nx.fwd st) !! source) eqn:Hs; [done|].
    destruct (pop_root _ _ _ _ _ _ _ _ _ Hf Hpop Hs) as [-> _]. congruence.
Qed.

Lemma turn_final backward st d c v rest :
  bi_inv G weight source target backward st ->
  Nx.heappop (Nx.fringe (Nx.side_of st backward)) = Some ((d, c, v), rest) ->
  Nx.dist (Nx.side_of st backward) !! v = None ->
  turn (negb backward) (Nx.put st backward (Nx.set_dist (Nx.side_of st backward) v d rest)).
Proof.
  intros [[cur Hmid] [Tf T0 T1 Tb]] Hpop Hv.
  destruct (head_sides _ _ _ Hmid) as [[cf Hf] [cb Hb]].
  destruct backward; simpl in *; split; simpl; try done.
  - intros Hs. destruct (Tf eq_refl) as [ds Hds]. congruence.
  - intros [Ht Hne]%lookup_insert_None.
    destruct (pop_root _ _ _ _ _ _ _ _ _ Hb Hpop Ht) as [-> _]. done.
  - intros _ _. destruct (Nx.dist (Nx.bwd st) !! target) eqn:Ht.
    + apply lookup_insert_is_Some'. right. by rewrite Ht.
    + destruct (pop_root _ _ _ _ _ _ _ _ _ Hb Hpop Ht) as [-> _].
      rewrite lookup_insert_eq. done.
  - intros _. destruct (Nx.dist (Nx.fwd st) !! source) eqn:Hs.
    + apply lookup_insert_is_Some'. right. by rewrite Hs.
    + destruct (pop_root _ _ _ _ _ _ _ _ _ Hf Hpop Hs) as [-> _].
      by rewrite lookup_insert_eq.
  - intros [Hs Hne]%lookup_insert_None.
    destruct (pop_root _ _ _ _ _ _ _ _ _ Hf Hpop Hs) as [-> _]. done.
  - intros Ht x dx Hx.
    destruct (Nx.dist (Nx.fwd st) !! source) eqn:Hs.
    + destruct (Tb eq_refl) as [dt Hdt]; [done|congruence].
    + destruct (pop_root _ _ _ _ _ _ _ _ _ Hf Hpop Hs) as [-> Hempty].
      rewrite Hempty in Hx. by apply lookup_insert_Some in Hx as [[<- _]|[_ ?]].
Qed.

(** *** One move *)

Lemma skip_mid backward cur st d c v rest dv :
  mid backward cur [] st ->
  Nx.heappop (Nx.fringe (Nx.side_of st backward)) = Some ((d, c, v), rest) ->
  Nx.dist (Nx.side_of st backward) !! v = Some dv ->
  mid backward cur [] (Nx.put st backward (Nx.set_fringe (Nx.side_of st backward) rest)).
Proof.
  intros [Hthis Hother [Hbound Hwalk Hdisj]] Hpop Hv. split.
  - rewrite put_this. by eapply pop_skip.
  - by rewrite put_other.
  - by destruct backward; split.
Qed.

Lemma final_mid backward cur st d c v rest :
  mid backward cur [] st ->
  Nx.heappop (Nx.fringe (Nx.side_of st backward)) = Some ((d, c, v), rest) ->
  Nx.dist (Nx.side_of st backward) !! v = None ->
  Nx.dist (Nx.side_of st (negb backward)) !! v = None ->
  mid backward v (Nx.items (adj backward) v)
    (Nx.put st backward (Nx.set_dist (Nx.side_of st backward) v d rest)).
Proof.
  intros [Hthis Hother [Hbound Hwalk Hdisj]] Hpop Hv Ho. split.
  - rewrite put_this. by apply (pop_final _ _ _ (adj_nonneg backward) cur _ d c).
  - by rewrite put_other.
  - destruct backward; simpl in *; split; simpl; try done.
    + intros x dx dy Hx [[<- <-]|[Hne Hy]]%lookup_insert_Some; [congruence|by eapply Hdisj].
    + intros x dx dy [[<- <-]|[Hne Hx]]%lookup_insert_Some Hy; [congruence|by eapply Hdisj].
Qed.

(** The search stops when the popped node has a final distance on the other
    side: [final] is then a shortest walk. *)
Lemma meeting_post backward cur st d c v rest b0 :
  mid backward cur [] st ->
  Nx.heappop (Nx.fringe (Nx.side_of st backward)) = Some ((d, c, v), rest) ->
  Nx.dist (Nx.side_of st backward) !! v = None ->
  Nx.dist (Nx.side_of st (negb backward)) !! v = Some b0 ->
  exists fd fp, Nx.final st = Some (fd, fp) /\ fwalk target fp fd /\
    forall q L, fwalk target q L -> num_le fd L.
Proof.
  intros [Hthis [curY Hother] [Hbound Hwalk Hdisj]] Hpop Hv Ho.
  pose proof (pop_final _ _ _ (adj_nonneg backward) _ _ _ _ _ _ Hthis Hpop Hv) as HX.
  set (sdX := Nx.set_dist (Nx.side_of st backward) v d rest) in *.
  assert (Ha : Nx.dist sdX !! v = Some d) by apply lookup_insert_eq.
  assert (Hsa : Nx.seen (Nx.side_of st backward) !! v = Some d)
    by apply (inv_dist_seen _ _ _ _ _ _ HX _ _ Ha).
  assert (Hsb : Nx.seen (Nx.side_of st (negb backward)) !! v = Some b0)
    by apply (inv_dist_seen _ _ _ _ _ _ Hother _ _ Ho).
  assert (Hfinal : exists fd fp, Nx.final st = Some (fd, fp)).
  { destruct backward; simpl in *.
    - destruct (Hbound v b0 d Hsb Hsa) as (fd & fp & ? & _). by exists fd, fp.
    - destruct (Hbound v d b0 Hsa Hsb) as (fd & fp & ? & _). by exists fd, fp. }
  destruct Hfinal as (fd & fp & Hfinal). exists fd, fp.
  split; [done|]. split; [by apply Hwalk|].
  intros q L Hq. destruct (walk_from_root backward q L Hq) as [q' Hq'].
  apply (meeting (adj backward) (adj (negb backward)) weight (root backward)
           (root (negb backward)) (adj_reversed backward)
           (adj_nonneg backward) (adj_nonneg (negb backward))
           sdX (Nx.side_of st (negb backward)) v curY (Nx.items (adj backward) v)
           d b0 fd HX Hother Ha Ho) with (q := q'); [|done].
  intros w a' b' Ha' Hb'. change (Nx.seen sdX) with (Nx.seen (Nx.side_of st backward)) in Ha'.
  destruct backward; simpl in *.
  - destruct (Hbound w b' a' Hb' Ha') as (fd' & fp' & Hf' & Hle).
    rewrite num_add_comm. congruence.
  - destruct (Hbound w a' b' Ha' Hb') as (fd' & fp' & Hf' & Hle). congruence.
Qed.

(** *** The loop *)

Lemma bi_loop_spec fuel backward st c :
  bi_inv G weight source target backward st ->
  (bi_measure G st < fuel)%nat ->
  bi_post G weight source target (Nx.bi_loop weight fuel G backward st c).
Proof.
  revert backward st c. induction fuel as [|fuel IH]; intros backward st c Hinv Hfuel; [lia|].
  cbn [Nx.bi_loop]. pose proof Hinv as [[cur Hmid] Hturn].
  destruct (Nx.fringe (Nx.fwd st)) as [|x1 f1] eqn:Hff.
  { intros q L Hq. destruct (fringes_nonempty _ _ _ _ Hinv Hq). congruence. }
  destruct (Nx.fringe (Nx.bwd st)) as [|x2 f2] eqn:Hfb.
  { intros q L Hq. destruct (fringes_nonempty _ _ _ _ Hinv Hq). congruence. }
  destruct (Nx.heappop (Nx.fringe (Nx.side_of st backward)))
    as [[[[d c0] v] rest]|] eqn:Hpop;
    [|apply heappop_None in Hpop; destruct backward; simpl in Hpop; congruence].
  pose proof (heappop_length _ _ _ Hpop) as Hlen.
  destruct (Nx.dist (Nx.side_of st backward) !! v) as [dv|] eqn:Hv.
  - apply IH.
    + split; [|by eapply turn_skip]. eapply mid_flip. by eapply skip_mid.
    + unfold bi_measure in *. destruct backward; simpl in *; lia.
  - rewrite put_other.
    destruct (Nx.dist (Nx.side_of st (negb backward)) !! v) as [b0|] eqn:Ho.
    + destruct (meeting_post _ _ _ _ _ _ _ _ Hmid Hpop Hv Ho) as (fd & fp & Hfinal & Hpost).
      replace (Nx.final (Nx.put st backward _)) with (Nx.final st) by (by destruct backward).
      by rewrite Hfinal.
    + pose proof (final_mid _ _ _ _ _ _ _ Hmid Hpop Hv Ho) as Hmid1.
      pose proof (turn_final _ _ _ _ _ _ Hinv Hpop Hv) as Hturn1.
      set (st1 := Nx.put st backward _) in *.
      destruct (bi_relax_all_inv backward v _ st1 c d Hmid1)
        as (st' & c' & -> & Hmid' & Hdf & Hdb & Hfr & Hfo).
      { unfold st1. rewrite put_this. apply lookup_insert_eq. }
      apply IH.
      * split; [by eapply mid_flip|]. by eapply turn_dists.
      * unfold bi_measure in *. rewrite Hdf, Hdb.
        pose proof (pending_insert (adj backward) (Nx.dist (Nx.side_of st backward)) v d Hv).
        unfold st1 in *. destruct backward; simpl in *; rewrite ?Hfo; lia.
Qed.

(** *** From the first turn to the answer *)

Lemma bi_init_inv :
  bi_inv G weight source target false
    (Nx.mkBoth (Nx.init_side source 0) (Nx.init_side target 1) None).
Proof.
  split; [exists source|]; split; simpl; try done.
  - apply init_side_inv.
  - exists target. apply init_side_inv.
  - split; simpl; try done.
    intros w a b [<- _]%lookup_singleton_Some [? _]%lookup_singleton_Some. done.
Qed.

Lemma bidirectional_dijkstra_spec :
  Nx.has_node G source = true -> Nx.has_node G target = true ->
  bi_post G weight source target (Nx.bidirectional_dijkstra weight G source target).
Proof.
  intros Hs Ht. unfold Nx.bidirectional_dijkstra. rewrite Hs, Ht. cbn [negb orb].
  destruct (String.eqb_spec source target) as [?|_]; [done|].
  apply bi_loop_spec; [apply bi_init_inv|].
  unfold bi_measure. simpl. rewrite !pending_empty. lia.
Qed.

End Bidirectional.

(** ** The length query *)

Section Length.
Context {W : Type} `{NumberLaws W}.
Variables (G : Nx.DiGraph W) (weight : Nx.EdgeData W -> W) (source target : Nx.node).
Hypothesis G_nonneg : forall u v e,
  (v, e) ∈ Nx.items (Nx._succ G) u -> num_le num_zero (weight e).

Lemma dijkstra_multisource_spec :
  exists sd,
    Nx.dijkstra_multisource weight G source target = Return sd /\
    (forall d, Nx.dist sd !! target = Some d ->
       (exists p, Nx.paths sd !! target = Some p /\
                  Nx.walk (Nx._succ G) weight source target p d) /\
       forall q w, Nx.walk (Nx._succ G) weight source target q w -> num_le d w) /\
    (Nx.dist sd !! target = None ->
       forall q w, ~ Nx.walk (Nx._succ G) weight source target q w).
Proof.
  unfold Nx.dijkstra_multisource.
  apply (search_loop_spec _ _ _ G_nonneg _ _ source).
  - apply init_side_inv.
  - simpl. rewrite pending_empty. lia.
Qed.

Lemma dijkstra_path_length_spec :
  Nx.has_node G source = true -> source <> target ->
  match Nx.dijkstra_path_length weight G source target with
  | Return d =>
      (exists p, Nx.walk (Nx._succ G) weight source target p d) /\
      forall q w, Nx.walk (Nx._succ G) weight source target q w -> num_le d w
  | Raise NetworkXNoPath =>
      forall q w, ~ Nx.walk (Nx._succ G) weight source target q w
  | _ => False
  end.
Proof.
  intros Hs Hne. unfold Nx.dijkstra_path_length. rewrite Hs. cbn [negb].
  destruct (String.eqb_spec source target) as [?|_]; [done|].
  destruct dijkstra_multisource_spec as (sd & -> & Hsome & Hnone).
  destruct (Nx.dist sd !! target) as [d|]; [|by apply Hnone].
  destruct (Hsome d eq_refl) as [(p & _ & Hp) Hopt]. split; [by exists p|done].
Qed.

End Length.

(** ** The budget is enough

    Whatever the weights are, a search stops within its budget: every turn
    pops one entry, and only a node that receives its final distance pushes
    entries, at most one for each of its edges. *)

Section Termination.
Context {W : Type} `{Number W}.
Variable weight : Nx.EdgeData W -> W.

Lemma relax_budget v d sd c ue sd' c' b :
  Nx.relax weight v d sd c ue = Return (sd', c', b) ->
  Nx.dist sd' = Nx.dist sd /\
  (length (Nx.fringe sd') <= S (length (Nx.fringe sd)))%nat /\
  (b = false -> sd' = sd).
Proof.
  destruct ue as [u e]. unfold Nx.relax.
  assert (Hpush : forall vu,
    length (Nx.fringe (Nx.relaxed sd c v u vu)) = S (length (Nx.fringe sd))).
  { intros vu. simpl. unfold Nx.heappush. rewrite length_app. simpl. lia. }
  destruct (Nx.dist sd !! u).
  - destruct (num_lt _ _); [done|]. intros [= <- <- <-]. split_and!; [done|lia|done].
  - destruct (Nx.seen sd !! u).
    + destruct (num_lt _ _); intros [= <- <- <-];
        (split_and!; [done|rewrite ?Hpush; lia|done]).
    + intros [= <- <- <-]. split_and!; [done|rewrite Hpush; lia|done].
Qed.

Lemma relax_all_budget v d sd c nbrs :
  match Nx.relax_all weight v d sd c nbrs with
  | Return (sd', _) =>
      Nx.dist sd' = Nx.dist sd /\
      (length (Nx.fringe sd') <= length (Nx.fringe sd) + length nbrs)%nat
  | Raise _ => True
  | OutOfFuel => False
  end.
Proof.
  revert sd c. induction nbrs as [|ue nbrs IH]; intros sd c; cbn [Nx.relax_all].
  - split; [done|lia].
  - destruct (Nx.relax weight v d sd c ue) as [[[sd1 c1] b]|e|] eqn:Hr; [|done|].
    + destruct (relax_budget _ _ _ _ _ _ _ _ Hr) as (Hd & Hlen & _).
      specialize (IH sd1 c1). destruct (Nx.relax_all weight v d sd1 c1 nbrs) as [[sd' c']| |];
        [|done..].
      destruct IH as [Hd' Hlen']. split; [congruence|]. cbn [length]. lia.
    + destruct ue as [u e]. unfold Nx.relax in Hr.
      by repeat (destruct (_ !! u) in Hr || destruct (num_lt _ _) in Hr).
Qed.

Lemma search_loop_terminates fuel adj target sd c :
  (length (Nx.fringe sd) + pending adj (Nx.dist sd) < fuel)%nat ->
  Nx.search_loop weight fuel adj target sd c <> OutOfFuel.
Proof.
  revert sd c. induction fuel as [|fuel IH]; intros sd c Hfuel; [lia|].
  cbn [Nx.search_loop].
  destruct (Nx.heappop (Nx.fringe sd)) as [[[[d c0] v] rest]|] eqn:Hpop; [|done].
  pose proof (heappop_length _ _ _ Hpop) as Hlen.
  destruct (Nx.dist sd !! v) eqn:Hv.
  - apply IH. simpl. lia.
  - destruct (String.eqb v target); [done|].
    pose proof (relax_all_budget v d (Nx.set_dist sd v d rest) c (Nx.items adj v)) as Hb.
    destruct (Nx.relax_all _ _ _ _ _ _) as [[sd' c']| |]; [|done..].
    destruct Hb as [Hd Hfr]. apply IH. rewrite Hd. simpl in *.
    pose proof (pending_insert adj (Nx.dist sd) v d Hv). lia.
Qed.

Lemma bi_relax_all_budget backward v d st c nbrs :
  match Nx.bi_relax_all weight backward v d st c nbrs with
  | Return (st', _) =>
      Nx.dist (Nx.fwd st') = Nx.dist (Nx.fwd st) /\
      Nx.dist (Nx.bwd st') = Nx.dist (Nx.bwd st) /\
      (length (Nx.fringe (Nx.side_of st' backward))
         <= length (Nx.fringe (Nx.side_of st backward)) + length nbrs)%nat /\
      Nx.fringe (Nx.side_of st' (negb backward)) = Nx.fringe (Nx.side_of st (negb backward))
  | Raise _ => True
  | OutOfFuel => False
  end.
Proof.
  revert st c. induction nbrs as [|ue nbrs IH]; intros st c; cbn [Nx.bi_relax_all].
  - split_and!; [done..|lia|done].
  - destruct (Nx.relax weight v d (Nx.side_of st backward) c ue)
      as [[[sd1 c1] b]|e|] eqn:Hr; [|done|].
    + destruct (relax_budget _ _ _ _ _ _ _ _ Hr) as (Hd & Hlen & _).
      set (st1 := if b then Nx.meet (Nx.put st backward sd1) ue.1
                  else Nx.put st backward sd1).
      assert (Hsides : Nx.fwd st1 = Nx.fwd (Nx.put st backward sd1) /\
                       Nx.bwd st1 = Nx.bwd (Nx.put st backward sd1)).
      { unfold st1. destruct b; [apply meet_sides|done]. }
      destruct Hsides as [Hf1 Hb1]. specialize (IH st1 c1).
      destruct (Nx.bi_relax_all weight backward v d st1 c1 nbrs) as [[st' c']| |];
        [|done..].
      destruct IH as (Hdf & Hdb & Hfr & Hfo).
      rewrite Hdf, Hdb, Hfo. clear Hdf Hdb Hfo.
      destruct backward; simpl in *; rewrite ?Hf1, ?Hb1 in *; simpl in *;
        (split_and!; [congruence..|lia|done]).
    + destruct ue as [u e]. unfold Nx.relax in Hr.
      by repeat (destruct (_ !! u) in Hr || destruct (num_lt _ _) in Hr).
Qed.

Lemma bi_loop_terminates fuel G backward st c :
  (bi_measure G st < fuel)%nat ->
  Nx.bi_loop weight fuel G backward st c <> OutOfFuel.
Proof.
  revert backward st c. induction fuel as [|fuel IH]; intros backward st c Hfuel; [lia|].
  cbn [Nx.bi_loop].
  destruct (Nx.fringe (Nx.fwd st)) as [|x1 f1] eqn:Hff; [done|].
  destruct (Nx.fringe (Nx.bwd st)) as [|x2 f2] eqn:Hfb; [done|].
  destruct (Nx.heappop (Nx.fringe (Nx.side_of st backward)))
    as [[[[d c0] v] rest]|] eqn:Hpop; [|done].
  pose proof (heappop_length _ _ _ Hpop) as Hlen.
  destruct (Nx.dist (Nx.side_of st backward) !! v) as [dv|] eqn:Hv.
  - apply IH. unfold bi_measure in *. destruct backward; simpl in *; lia.
  - destruct (Nx.dist (Nx.side_of _ (negb backward)) !! v).
    { by destruct (Nx.final _). }
    set (st1 := Nx.put st backward _).
    pose proof (bi_relax_all_budget backward v d st1 c (Nx.items (Nx.neighs G backward) v)) as Hb.
    destruct (Nx.bi_relax_all _ _ _ _ _ _ _) as [[st' c']| |]; [|done..].
    destruct Hb as (Hdf & Hdb & Hfr & Hfo). apply IH.
    unfold bi_measure in *. rewrite Hdf, Hdb.
    pose proof (pending_insert (Nx.neighs G backward)
                  (Nx.dist (Nx.side_of st backward)) v d Hv).
    unfold st1 in *. destruct backward; simpl in *; rewrite ?Hfo; lia.
Qed.

End Termination.

Lemma shortest_path_terminates {W : Type} `{Number W} (G : Nx.DiGraph W) source target a :
  Nx.shortest_path G source target a <> OutOfFuel.
Proof.
  unfold Nx.shortest_path, Nx.bidirectional_dijkstra.
  destruct (_ || _); [done|]. destruct (String.eqb source target); [done|].
  pose proof (bi_loop_terminates (Nx.weight_function a)
    (3 + Nx.edge_count (Nx._succ G) + Nx.edge_count (Nx._pred G)) G false
    (Nx.mkBoth (Nx.init_side source 0) (Nx.init_side target 1) None) 2) as Hb.
  destruct (Nx.bi_loop _ _ _ _ _ _) as [[fd fp]| |]; [done..|].
  exfalso. apply Hb; [|done]. unfold bi_measure. simpl. rewrite !pending_empty. lia.
Qed.

Lemma shortest_path_length_terminates {W : Type} `{Number W} (G : Nx.DiGraph W)
    source target a :
  Nx.shortest_path_length G source target a <> OutOfFuel.
Proof.
  unfold Nx.shortest_path_length, Nx.dijkstra_path_length, Nx.dijkstra_multisource.
  destruct (negb _); [done|]. destruct (String.eqb source target); [done|].
  pose proof (search_loop_terminates (Nx.weight_function a)
                (2 + Nx.edge_count (Nx._succ G)) (Nx._succ G) target
                (Nx.init_side source 0) 1) as Hs.
  destruct (Nx.search_loop _ _ _ _ _ _) as [sd| |]; [by destruct (_ !! target)|done|].
  exfalso. apply Hs; [|done]. simpl. rewrite pending_empty. lia.
Qed.


(** X23: both queries come back, with a result or an exception, on every
    graph and for every kind of weight: the searches end within the budget
    of one round per heap entry that the edges can cause. *)
Lemma queries_terminate {W : Type} `{Number W} (self : EcoShipmentOptimizer W)
    (source target : Nx.node) :
  fst (calculate_min_emission_path source target self) <> OutOfFuel /\
  fst (calculate_min_cost_path source target self) <> OutOfFuel.
Proof.
  rewrite emission_run, cost_run. unfold min_path_of. cbn [fst].
  split.
  - pose proof (shortest_path_terminates (graph self) source target Nx.Emission).
    pose proof (shortest_path_length_terminates (graph self) source target Nx.Emission).
    destruct (Nx.shortest_path _ _ _ _) as [p|[]|]; try done.
    by destruct (Nx.shortest_path_length _ _ _ _) as [w|[]|].
  - pose proof (shortest_path_terminates (graph self) source target Nx.Cost).
    pose proof (shortest_path_length_terminates (graph self) source target Nx.Cost).
    destruct (Nx.shortest_path _ _ _ _) as [p|[]|]; try done.
    by destruct (Nx.shortest_path_length _ _ _ _) as [w|[]|].
Qed.

(** ** Building the graph *)

Section Construction.
Context {W : Type}.
Implicit Types (G : Nx.DiGraph W) (data : Nx.EdgeData W).

Lemma assoc_assoc_set {A} (l : list (Nx.node * A)) k x k' :
  Nx.assoc (Nx.assoc_set l k x) k' = if String.eqb k k' then Some x else Nx.assoc l k'.
Proof.
  induction l as [|[k0 y] l IH]; simpl; [done|].
  destruct (String.eqb_spec k0 k) as [->|Hne]; simpl.
  - by destruct (String.eqb k k').
  - rewrite IH. destruct (String.eqb_spec k0 k') as [->|Hne']; [|done].
    by destruct (String.eqb_spec k k').
Qed.

Lemma items_assoc_set {A} (adj : list (Nx.node * list A)) k x k' :
  Nx.items (Nx.assoc_set adj k x) k' = if String.eqb k k' then x else Nx.items adj k'.
Proof. unfold Nx.items. rewrite assoc_assoc_set. by destruct (String.eqb k k'). Qed.

Lemma items_app_empty {A} (adj : list (Nx.node * list A)) n k :
  Nx.items (adj ++ [(n, [])]) k = Nx.items adj k.
Proof.
  unfold Nx.items. induction adj as [|[k0 y] adj IH]; simpl.
  - by destruct (String.eqb n k).
  - by destruct (String.eqb k0 k).
Qed.

Lemma keys_assoc_set {A} (l : list (Nx.node * A)) k x :
  (Nx.assoc_set l k x).*1 = if bool_decide (k ∈ l.*1) then l.*1 else l.*1 ++ [k].
Proof.
  induction l as [|[k0 y] l IH]; csimpl; [done|].
  destruct (String.eqb_spec k0 k) as [->|Hne]; csimpl.
  - rewrite bool_decide_eq_true_2; [done|]. apply elem_of_cons; by left.
  - rewrite IH. destruct (bool_decide_reflect (k ∈ l.*1)) as [Hin|Hnin].
    + rewrite bool_decide_eq_true_2; [done|]. apply elem_of_cons; by right.
    + rewrite bool_decide_eq_false_2; [done|].
      intros [?|?]%elem_of_cons; congruence.
Qed.

Lemma NoDup_assoc_set {A} (l : list (Nx.node * A)) k x :
  NoDup l.*1 -> NoDup (Nx.assoc_set l k x).*1.
Proof.
  intros Hnd. rewrite keys_assoc_set.
  destruct (bool_decide_reflect (k ∈ l.*1)) as [Hin|Hnin]; [done|].
  apply NoDup_app. split_and!; [done| |apply NoDup_singleton].
  intros k' Hk' ->%list_elem_of_singleton. done.
Qed.

Lemma elem_of_assoc_set {A} (l : list (Nx.node * A)) k x k' x' :
  NoDup l.*1 ->
  (k', x') ∈ Nx.assoc_set l k x <-> (k' = k /\ x' = x) \/ (k' <> k /\ (k', x') ∈ l).
Proof.
  induction l as [|[k0 y] l IH]; csimpl; intros Hnd.
  - rewrite list_elem_of_singleton. split.
    + intros [= -> ->]. by left.
    + intros [[-> ->]|[_ Hin]]; [done|]. by apply elem_of_nil in Hin.
  - apply NoDup_cons in Hnd as [Hk0 Hnd].
    destruct (String.eqb_spec k0 k) as [->|Hne]; rewrite !elem_of_cons.
    + split.
      * intros [[= -> ->]|Hin]; [by left|]. right. split; [|by right].
        intros ->. apply Hk0. apply list_elem_of_fmap. by exists (k, x').
      * intros [[-> ->]|[Hne [[= -> ->]|Hin]]]; [by left|done|by right].
    + rewrite (IH Hnd). split.
      * intros [[= -> ->]|[?|[? ?]]]; [right; split; [done|by left]|by left|].
        right. split; [done|by right].
      * intros [?|[? [?|?]]]; [right; by left|by left|right; by right].
Qed.

Lemma has_node_add G n m :
  Nx.has_node (Nx.add_node_if_missing G n) m = true <->
  Nx.has_node G m = true \/ m = n.
Proof.
  unfold Nx.add_node_if_missing.
  destruct (Nx.has_node G n) eqn:Hn.
  - split; [by left|]. by intros [?| ->].
  - unfold Nx.has_node. simpl. rewrite existsb_app. simpl.
    rewrite orb_true_iff, orb_false_r. by rewrite String.eqb_eq.
Qed.

Lemma items_add_node G n k :
  Nx.items (Nx._succ (Nx.add_node_if_missing G n)) k = Nx.items (Nx._succ G) k /\
  Nx.items (Nx._pred (Nx.add_node_if_missing G n)) k = Nx.items (Nx._pred G) k.
Proof.
  unfold Nx.add_node_if_missing. destruct (Nx.has_node G n); [done|].
  simpl. by rewrite !items_app_empty.
Qed.

Lemma empty_wf : Nx.wf (@Nx.empty W).
Proof.
  split; unfold Nx.items; simpl; intros; try apply NoDup_nil_2.
  - split; intros Hin; by apply elem_of_nil in Hin.
  - by apply elem_of_nil in H.
Qed.

(** [add_edge] keeps the class invariant. *)
Lemma add_edge_wf G u v data : Nx.wf G -> Nx.wf (Nx.add_edge G u v data).
Proof.
  intros [Hpred Hnode Hsk Hpk]. unfold Nx.add_edge.
  set (G1 := Nx.add_node_if_missing G u). set (G2 := Nx.add_node_if_missing G1 v).
  assert (Hitems : forall k,
    Nx.items (Nx._succ G2) k = Nx.items (Nx._succ G) k /\
    Nx.items (Nx._pred G2) k = Nx.items (Nx._pred G) k).
  { intros k. unfold G2. destruct (items_add_node G1 v k) as [-> ->].
    apply items_add_node. }
  assert (Hn2 : forall m, Nx.has_node G2 m = true <->
                          Nx.has_node G m = true \/ m = u \/ m = v).
  { intros m. unfold G2, G1. rewrite !has_node_add. tauto. }
  split; cbn [Nx._succ Nx._pred Nx._node]; change (Nx.has_node (Nx.mkDiGraph (Nx._node G2) _ _))
    with (fun m => Nx.has_node G2 m).
  - intros a b e. rewrite !items_assoc_set.
    destruct (Hitems u) as [-> _], (Hitems v) as [_ ->].
    destruct (Hitems a) as [-> _], (Hitems b) as [_ ->].
    destruct (String.eqb_spec u a) as [<-|Hua], (String.eqb_spec v b) as [<-|Hvb];
      rewrite ?elem_of_assoc_set by done.
    + split; (intros [[_ ->]|[? _]]; [by left|done]).
    + rewrite <- Hpred. split; [intros [[? _]|[_ ?]]; done|].
      intros ?. right. split; [congruence|done].
    + rewrite Hpred. split; [|intros [[? _]|[_ ?]]; done].
      intros ?. right. split; [congruence|done].
    + apply Hpred.
  - intros a b e. rewrite !items_assoc_set.
    destruct (Hitems u) as [-> _], (Hitems a) as [-> _].
    unfold Nx.has_node at 1 2. cbn [Nx._node]. fold (Nx.has_node G2 a) (Nx.has_node G2 b).
    rewrite !Hn2.
    destruct (String.eqb_spec u a) as [<-|Hua].
    + rewrite elem_of_assoc_set by done.
      intros [[-> _]|[_ Hin]]; [tauto|]. destruct (Hnode _ _ _ Hin). tauto.
    + intros Hin. destruct (Hnode _ _ _ Hin). tauto.
  - intros a. rewrite items_assoc_set. destruct (Hitems u) as [-> _], (Hitems a) as [-> _].
    destruct (String.eqb u a); [by apply NoDup_assoc_set|done].
  - intros b. rewrite items_assoc_set. destruct (Hitems v) as [_ ->], (Hitems b) as [_ ->].
    destruct (String.eqb v b); [by apply NoDup_assoc_set|done].
Qed.

End Construction.

(** ** The path queries *)

Section Queries.
Context {W : Type} `{NumberLaws W}.
Implicit Types (G : Nx.DiGraph W) (self : EcoShipmentOptimizer W).

Lemma emission_query source target :
  calculate_min_emission_path (W:=W) source target = calculate_min_path Nx.Emission source target.
Proof. reflexivity. Qed.

Lemma cost_query source target :
  calculate_min_cost_path (W:=W) source target = calculate_min_path Nx.Cost source target.
Proof. reflexivity. Qed.

(** In a graph, a walk between nodes stays among the nodes. *)
Lemma walk_has_node G weight source target p w :
  Nx.wf G -> Nx.has_node G source = true ->
  Nx.walk (Nx._succ G) weight source target p w -> Nx.has_node G target = true.
Proof.
  intros Hwf Hs. destruct 1 as [|v p w u e _ Hin]; [done|].
  by destruct (Nx.wf_node G Hwf _ _ _ Hin).
Qed.

(** What a query answers on a graph without negative weights, asked about
    two of its nodes: a path that no other path is lighter than, with the
    weight of that path; or the sentinel, and then there is no path. *)
Lemma calculate_min_path_spec a self source target :
  Nx.wf (graph self) -> Nx.nonneg (graph self) a ->
  Nx.has_node (graph self) source = true -> Nx.has_node (graph self) target = true ->
  (exists p w,
     fst (calculate_min_path a source target self) = Return (p, Finite w) /\
     Nx.path (graph self) a source target p w /\
     forall q L, Nx.path (graph self) a source target q L -> num_le w L) \/
  (fst (calculate_min_path a source target self) = Return ([], Inf) /\
   forall q L, ~ Nx.path (graph self) a source target q L).
Proof.
  intros Hwf Hnonneg Hs Ht.
  rewrite min_path_run. unfold min_path_of, Nx.shortest_path, Nx.shortest_path_length.
  cbn [fst]. set (G := graph self) in *.
  destruct (decide (source = target)) as [<-|Hne].
  - left. exists [source], num_zero.
    unfold Nx.bidirectional_dijkstra, Nx.dijkstra_path_length.
    rewrite Hs, String.eqb_refl. cbn [negb orb]. split; [done|].
    split; [split; [done|constructor]|].
    intros q L [_ Hq]. eapply walk_nonneg; [|done]. apply Hnonneg.
  - pose proof (bidirectional_dijkstra_spec G (Nx.weight_function a) source target
                  (Nx.wf_pred G Hwf) Hnonneg Hne Hs Ht) as Hbi.
    pose proof (dijkstra_path_length_spec G (Nx.weight_function a) source target
                  Hnonneg Hs Hne) as Hlen.
    destruct (Nx.bidirectional_dijkstra _ G source target) as [[fd fp]|[]|];
      simpl in Hbi; try done.
    + destruct Hbi as [Hfp Hopt].
      destruct (Nx.dijkstra_path_length _ G source target) as [d|[]|];
        try done; [|by destruct (Hlen fp fd)].
      destruct Hlen as [[p Hp] Hopt']. left. exists fp, d.
      assert (fd = d) as -> by (apply le_antisym; eauto).
      split; [done|]. split; [by split|]. intros q L [_ Hq]. by eapply Hopt'.
    + right. split; [done|]. intros q L [_ Hq]. by eapply Hbi.
Qed.

End Queries.

(** ** Graphs built by [add_route] *)

Section Routes.
Context {W : Type} `{Number W}.
Implicit Types (G : Nx.DiGraph W) (self : EcoShipmentOptimizer W).

Lemma init_wf : Nx.wf (graph (W:=W) __init__).
Proof. apply empty_wf. Qed.

Lemma add_route_wf self source target distance emission_factor cost :
  Nx.wf (graph self) ->
  Nx.wf (graph (snd (add_route source target distance emission_factor cost self))).
Proof. apply add_edge_wf. Qed.

Lemma empty_nonneg a : Nx.nonneg (@Nx.empty W) a.
Proof. intros u v data Hin. by apply elem_of_nil in Hin. Qed.

Lemma add_edge_nonneg G a u v data :
  Nx.wf G -> Nx.nonneg G a -> num_le num_zero (Nx.weight_function a data) ->
  Nx.nonneg (Nx.add_edge G u v data) a.
Proof.
  intros Hwf Hnn Hdata x y e. unfold Nx.add_edge. cbn [Nx._succ].
  rewrite items_assoc_set.
  destruct (items_add_node (Nx.add_node_if_missing G u) v u) as [-> _].
  destruct (items_add_node G u u) as [-> _].
  destruct (items_add_node (Nx.add_node_if_missing G u) v x) as [-> _].
  destruct (items_add_node G u x) as [-> _].
  destruct (String.eqb u x); [|apply Hnn].
  rewrite elem_of_assoc_set by apply (Nx.wf_succ_keys G Hwf).
  intros [[_ ->]|[_ Hin]]; [done|by eapply Hnn].
Qed.

Lemma add_route_nonneg self a source target distance emission_factor cost :
  Nx.wf (graph self) -> Nx.nonneg (graph self) a ->
  num_le num_zero
    (Nx.weight_function a
       (Nx.mkEdge distance (num_mul emission_factor distance) (num_mul cost distance))) ->
  Nx.nonneg (graph (snd (add_route source target distance emission_factor cost self))) a.
Proof. apply add_edge_nonneg. Qed.

End Routes.

Lemma demo_int_wf : Nx.wf (graph demo_int).
Proof. repeat apply add_route_wf. apply init_wf. Qed.

Lemma demo_int_nonneg a : Nx.nonneg (graph demo_int) a.
Proof.
  unfold demo_int, demo_int_routes, then_.
  repeat (apply add_route_nonneg;
          [repeat apply add_route_wf; apply init_wf | | by destruct a]).
  apply empty_nonneg.
Qed.


Lemma demo_int_path : Nx.path (graph demo_int) Nx.Emission "A" "D" ["A"; "C"; "D"] 3180.
Proof.
  split; [done|].
  change (Nx.walk (Nx._succ (graph demo_int)) (Nx.weight_function Nx.Emission) "A" "D"
            (["A"; "C"] ++ ["D"])
            (num_add 2100 (Nx.weight_function Nx.Emission (Nx.mkEdge 60 1080 5400)))).
  apply Nx.walk_step with (v := "C"%string).
  - change (Nx.walk (Nx._succ (graph demo_int)) (Nx.weight_function Nx.Emission) "A" "C"
              (["A"] ++ ["C"])
              (num_add 0 (Nx.weight_function Nx.Emission (Nx.mkEdge 140 2100 11900)))).
    apply Nx.walk_step with (v := "A"%string); [constructor|].
    apply list_elem_of_In. vm_compute. tauto.
  - apply list_elem_of_In. vm_compute. tauto.
Qed.

(** The two ways from [S] to [T] in [rounding], with the weights that adding
    their emissions from the left gives. *)
Lemma walk_three {W : Type} `{Number W} (adj : Nx.adjacency W) weight
    (a b c d : Nx.node) e1 e2 e3 :
  (b, e1) ∈ Nx.items adj a -> (c, e2) ∈ Nx.items adj b -> (d, e3) ∈ Nx.items adj c ->
  Nx.walk adj weight a d [a; b; c; d]
    (num_add (num_add (num_add num_zero (weight e1)) (weight e2)) (weight e3)).
Proof.
  intros H1 H2 H3.
  apply (Nx.walk_step adj weight a c [a; b; c] _ d e3); [|done].
  apply (Nx.walk_step adj weight a b [a; b] _ c e2); [|done].
  apply (Nx.walk_step adj weight a a [a] _ b e1); [|done].
  constructor.
Qed.

Lemma rounding_walk_XY :
  Nx.walk (Nx._succ (graph rounding)) (Nx.weight_function Nx.Emission) "S" "T"
    ["S"; "X"; "Y"; "T"] (dyadic (2 ^ 52 + 1) (-52)).
Proof.
  exact (walk_three (Nx._succ (graph rounding)) (Nx.weight_function Nx.Emission)
           "S" "X" "Y" "T"
           (Nx.mkEdge (float_of_Z 1) (dyadic 1 (-1)) (dyadic 1 (-1)))
           (Nx.mkEdge (float_of_Z 1) (dyadic 1 (-2)) (dyadic 1 (-2)))
           (Nx.mkEdge (float_of_Z 1) (dyadic (2 ^ 50 + 1) (-52)) (dyadic (2 ^ 50 + 1) (-52)))
           ltac:(apply list_elem_of_In; vm_compute; tauto)
           ltac:(apply list_elem_of_In; vm_compute; tauto)
           ltac:(apply list_elem_of_In; vm_compute; tauto)).
Qed.

Lemma rounding_walk_PQ :
  Nx.walk (Nx._succ (graph rounding)) (Nx.weight_function Nx.Emission) "S" "T"
    ["S"; "P"; "Q"; "T"] (float_of_Z 1).
Proof.
  exact (walk_three (Nx._succ (graph rounding)) (Nx.weight_function Nx.Emission)
           "S" "P" "Q" "T"
           (Nx.mkEdge (float_of_Z 1) (float_of_Z 1) (float_of_Z 1))
           (Nx.mkEdge (float_of_Z 1) (dyadic 1 (-53)) (dyadic 1 (-53)))
           (Nx.mkEdge (float_of_Z 1) (dyadic 1 (-54)) (dyadic 1 (-54)))
           ltac:(apply list_elem_of_In; vm_compute; tauto)
           ltac:(apply list_elem_of_In; vm_compute; tauto)
           ltac:(apply list_elem_of_In; vm_compute; tauto)).
Qed.

(** ** The claims about the path queries *)

(** C1, as the program has it: on the four routes of the demonstration the
    emission query from [A] to [D] returns the path [A, B, C, D], not
    [A, C, D]: its emission [10 + 10 + 10.8] is below [21 + 10.8].  In
    binary64 the returned sum is [8669429282688204 * 2^-48], printed
    30.799999999999997, one unit in the last place below the float nearest
    to 30.8; with the factors in hundredths and exact integers it is 3080. *)
Theorem demo_min_emission_path :
  fst (calculate_min_emission_path "A" "D" demo)
    = Return (["A"; "B"; "C"; "D"], Finite (S754_finite false 8669429282688204 (-48))) /\
  fst (calculate_min_emission_path "A" "D" demo_int)
    = Return (["A"; "B"; "C"; "D"], Finite 3080).
Proof. split; vm_compute; reflexivity. Qed.

(** The cost query on the same routes prefers [A, C, D]: 119 + 54 = 173. *)
Example demo_min_cost_path :
  fst (calculate_min_cost_path "A" "D" demo)
    = Return (["A"; "C"; "D"], Finite (float_of_Z 173)).
Proof. vm_compute. reflexivity. Qed.

(** C1 as stated fails: the answer is not the path [A, C, D] with 31.8. *)
Lemma demo_min_emission_path_not_ACD :
  fst (calculate_min_emission_path "A" "D" demo)
    <> Return (["A"; "C"; "D"], Finite (decimal 318 1)).
Proof. vm_compute. discriminate. Qed.




(** On the float-weighted routes of [main] the sentinel is what both queries
    answer between nodes without a path, here evaluated from [D] to [A]
    and from [C] to [B]. *)
Example demo_unreachable_sentinel :
  fst (calculate_min_emission_path "D" "A" demo) = Return ([], Inf) /\
  fst (calculate_min_cost_path "D" "A" demo) = Return ([], Inf) /\
  fst (calculate_min_emission_path "C" "B" demo) = Return ([], Inf) /\
  fst (calculate_min_cost_path "C" "B" demo) = Return ([], Inf).
Proof. split_and!; vm_compute; reflexivity. Qed.

(** The same happens for a target that is not a node. *)
Lemma missing_target_raises :
  fst (calculate_min_emission_path "A" "X" demo) = Raise NodeNotFound /\
  fst (calculate_min_cost_path "A" "X" demo) = Raise NodeNotFound.
Proof. split; vm_compute; reflexivity. Qed.

(** C6 as stated fails on float weights.  On the network [rounding], built
    by [add_route] without a negative weight, the emission query from [S]
    to [T] returns the path [S, X, Y, T], whose emissions add up to
    [1 + 2**-52], although the emissions of [S, P, Q, T] add up to [1.0] as
    floats (and to [1 + 2**-53 + 2**-54] without rounding), which is less.
    The search from both ends joins the second path as
    [1.0 + (2**-54 + 2**-53)], which rounds up to [1 + 2**-52] and so does
    not beat the path it has already; the length that comes with the path,
    [1.0], is found by the other library call and is not the weight of the
    returned path. *)
Lemma rounding_min_path_not_lightest :
  built rounding /\ Nx.nonneg (graph rounding) Nx.Emission /\
  fst (calculate_min_emission_path "S" "T" rounding)
    = Return (["S"; "X"; "Y"; "T"], Finite (float_of_Z 1)) /\
  Nx.path (graph rounding) Nx.Emission "S" "T" ["S"; "X"; "Y"; "T"]
    (dyadic (2 ^ 52 + 1) (-52)) /\
  Nx.path (graph rounding) Nx.Emission "S" "T" ["S"; "P"; "Q"; "T"] (float_of_Z 1) /\
  num_lt (float_of_Z 1) (dyadic (2 ^ 52 + 1) (-52)) = true.
Proof.
  split_and!.
  - unfold rounding, rounding_routes, then_. repeat apply built_add_route. apply built_init.
  - unfold rounding, rounding_routes, then_.
    repeat (apply add_route_nonneg;
            [repeat apply add_route_wf; apply init_wf | | by vm_compute]).
    apply empty_nonneg.
  - vm_compute. reflexivity.
  - split; [done|]. apply rounding_walk_XY.
  - split; [done|]. apply rounding_walk_PQ.
  - vm_compute. reflexivity.
Qed.

(** C6, as the program has it: on a graph without negative weights whose
    weights are added and compared exactly, when there is a path from
    [source] to [target], the emission query returns a path from [source] to
    [target] together with its emission, and no path from [source] to
    [target] has a smaller emission; the same holds of the cost query and
    cost. *)
Theorem min_path_is_lightest {W : Type} `{NumberLaws W}
    (self : EcoShipmentOptimizer W) (source target : Nx.node) :
  Nx.wf (graph self) ->
  (Nx.nonneg (graph self) Nx.Emission ->
   forall q L, Nx.path (graph self) Nx.Emission source target q L ->
   exists p w,
     fst (calculate_min_emission_path source target self) = Return (p, Finite w) /\
     Nx.path (graph self) Nx.Emission source target p w /\
     forall q' L', Nx.path (graph self) Nx.Emission source target q' L' -> num_le w L') /\
  (Nx.nonneg (graph self) Nx.Cost ->
   forall q L, Nx.path (graph self) Nx.Cost source target q L ->
   exists p w,
     fst (calculate_min_cost_path source target self) = Return (p, Finite w) /\
     Nx.path (graph self) Nx.Cost source target p w /\
     forall q' L', Nx.path (graph self) Nx.Cost source target q' L' -> num_le w L').
Proof.
  intros Hwf. split; intros Hnn q L Hq.
  - rewrite emission_query. destruct Hq as [Hs Hwalk].
    pose proof (walk_has_node _ _ _ _ _ _ Hwf Hs Hwalk) as Ht.
    destruct (calculate_min_path_spec Nx.Emission self source target Hwf Hnn Hs Ht)
      as [(p & w & Hr & Hp & Hopt)|[_ Hno]]; [by exists p, w|].
    by destruct (Hno q L).
  - rewrite cost_query. destruct Hq as [Hs Hwalk].
    pose proof (walk_has_node _ _ _ _ _ _ Hwf Hs Hwalk) as Ht.
    destruct (calculate_min_path_spec Nx.Cost self source target Hwf Hnn Hs Ht)
      as [(p & w & Hr & Hp & Hopt)|[_ Hno]]; [by exists p, w|].
    by destruct (Hno q L).
Qed.

Lemma min_path_is_lightest_witness :
  exists p w,
    fst (calculate_min_emission_path "A" "D" demo_int) = Return (p, Finite w) /\
    Nx.path (graph demo_int) Nx.Emission "A" "D" p w /\
    forall q' L', Nx.path (graph demo_int) Nx.Emission "A" "D" q' L' -> num_le w L'.
Proof.
  exact (proj1 (min_path_is_lightest demo_int "A" "D" demo_int_wf)
           (demo_int_nonneg Nx.Emission) ["A"; "C"; "D"] 3180 demo_int_path).
Defined.

(** * Further properties *)

(** ** What [add_route] does to the graph *)

Section AddRoute.
Context {W : Type} `{Number W}.
Implicit Types (G : Nx.DiGraph W) (self : EcoShipmentOptimizer W).

Lemma assoc_set_twice {A} (l : list (Nx.node * A)) k x y :
  Nx.assoc_set (Nx.assoc_set l k x) k y = Nx.assoc_set l k y.
Proof.
  induction l as [|[k0 z] l IH]; simpl.
  - by rewrite String.eqb_refl.
  - destruct (String.eqb k0 k) eqn:Hk; simpl; rewrite Hk; [done|]. by rewrite IH.
Qed.

Lemma elem_of_assoc_set_here {A} (l : list (Nx.node * A)) k x :
  (k, x) ∈ Nx.assoc_set l k x.
Proof.
  induction l as [|[k0 z] l IH]; simpl.
  - by apply list_elem_of_singleton.
  - destruct (String.eqb_spec k0 k) as [->|Hne]; apply elem_of_cons; [by left|by right].
Qed.

Lemma has_node_add_edge G u v data m :
  Nx.has_node (Nx.add_edge G u v data) m = true <->
  Nx.has_node G m = true \/ m = u \/ m = v.
Proof.
  unfold Nx.add_edge.
  change (Nx.has_node (Nx.mkDiGraph ?n _ _) m)
    with (Nx.has_node (Nx.add_node_if_missing (Nx.add_node_if_missing G u) v) m).
  rewrite !has_node_add. tauto.
Qed.

Lemma add_node_present G n : Nx.has_node G n = true -> Nx.add_node_if_missing G n = G.
Proof. intros Hn. unfold Nx.add_node_if_missing. by rewrite Hn. Qed.

Lemma items_add_edge G u v data k :
  Nx.items (Nx._succ (Nx.add_edge G u v data)) k
    = (if String.eqb u k then Nx.assoc_set (Nx.items (Nx._succ G) u) v data
       else Nx.items (Nx._succ G) k) /\
  Nx.items (Nx._pred (Nx.add_edge G u v data)) k
    = (if String.eqb v k then Nx.assoc_set (Nx.items (Nx._pred G) v) u data
       else Nx.items (Nx._pred G) k).
Proof.
  unfold Nx.add_edge. cbn [Nx._succ Nx._pred]. rewrite !items_assoc_set.
  destruct (items_add_node (Nx.add_node_if_missing G u) v u) as [-> _].
  destruct (items_add_node (Nx.add_node_if_missing G u) v v) as [_ ->].
  destruct (items_add_node (Nx.add_node_if_missing G u) v k) as [-> ->].
  destruct (items_add_node G u u) as [-> _], (items_add_node G u v) as [_ ->].
  by destruct (items_add_node G u k) as [-> ->].
Qed.

(** X1: the route that was just added can be read back: the edge from
    [source] to [target] carries the distance and the two derived weights,
    and the predecessor dictionary of [target] holds the same data. *)
Theorem add_route_stores self source target distance emission_factor cost :
  let G' := graph (snd (add_route source target distance emission_factor cost self)) in
  let data := Nx.mkEdge distance (num_mul emission_factor distance)
                (num_mul cost distance) in
  Nx.get_edge_data G' source target = Some data /\
  Nx.assoc (Nx.items (Nx._pred G') target) source = Some data.
Proof.
  cbn zeta. unfold Nx.get_edge_data, add_route, on_graph, Nx.Obj.add_edge. cbn [snd graph].
  destruct (items_add_edge (graph self) source target
              (Nx.mkEdge distance (num_mul emission_factor distance)
                 (num_mul cost distance)) source) as [-> _].
  destruct (items_add_edge (graph self) source target
              (Nx.mkEdge distance (num_mul emission_factor distance)
                 (num_mul cost distance)) target) as [_ ->].
  by rewrite !String.eqb_refl, !assoc_assoc_set, !String.eqb_refl.
Qed.

(** X2: adding a route changes no other edge: between any other ordered
    pair of locations the edge data is what it was, so in particular the
    reverse edge is not created. *)
Theorem add_route_other_edges self source target distance emission_factor cost u v :
  (u, v) <> (source, target) ->
  Nx.get_edge_data
    (graph (snd (add_route source target distance emission_factor cost self))) u v
  = Nx.get_edge_data (graph self) u v.
Proof.
  intros Hne. unfold Nx.get_edge_data, add_route, on_graph, Nx.Obj.add_edge. cbn [snd graph].
  destruct (items_add_edge (graph self) source target
              (Nx.mkEdge distance (num_mul emission_factor distance)
                 (num_mul cost distance)) u) as [-> _].
  destruct (String.eqb_spec source u) as [<-|Hu]; [|done].
  rewrite assoc_assoc_set. destruct (String.eqb_spec target v) as [<-|Hv]; [|done].
  done.
Qed.

(** X3: after [add_route] the nodes are the old nodes and the two end
    points of the route, nothing else. *)
Theorem add_route_nodes self source target distance emission_factor cost m :
  Nx.has_node (graph (snd (add_route source target distance emission_factor cost self))) m
    = true <->
  Nx.has_node (graph self) m = true \/ m = source \/ m = target.
Proof. apply has_node_add_edge. Qed.

(** X4: the last write wins, and leaves no trace of the first: adding a
    route between two locations and then another between the same two gives
    the very state that adding the second alone gives. *)
Theorem add_route_overwrites self source target d1 ef1 c1 d2 ef2 c2 :
  snd (add_route source target d2 ef2 c2 (snd (add_route source target d1 ef1 c1 self)))
  = snd (add_route source target d2 ef2 c2 self).
Proof.
  unfold add_route, on_graph, Nx.Obj.add_edge. cbn [snd graph]. f_equal.
  set (e1 := Nx.mkEdge d1 _ _). set (e2 := Nx.mkEdge d2 _ _).
  set (G := graph self).
  assert (Hu : Nx.has_node (Nx.add_edge G source target e1) source = true)
    by (apply has_node_add_edge; tauto).
  assert (Hv : Nx.has_node (Nx.add_edge G source target e1) target = true)
    by (apply has_node_add_edge; tauto).
  unfold Nx.add_edge at 1.
  rewrite (add_node_present _ source Hu), (add_node_present _ target Hv).
  destruct (items_add_edge G source target e1 source) as [-> _].
  destruct (items_add_edge G source target e1 target) as [_ ->].
  rewrite !String.eqb_refl, !assoc_set_twice.
  unfold Nx.add_edge. cbn [Nx._node Nx._succ Nx._pred]. rewrite !assoc_set_twice.
  destruct (items_add_node (Nx.add_node_if_missing G source) target source) as [-> _].
  destruct (items_add_node (Nx.add_node_if_missing G source) target target) as [_ ->].
  by destruct (items_add_node G source source) as [-> _],
              (items_add_node G source target) as [_ ->].
Qed.

End AddRoute.

Lemma add_route_other_edges_witness :
  Nx.get_edge_data (graph (snd (add_route "C" "D" 60 18 90 demo_int))) "D" "C"
  = Nx.get_edge_data (graph demo_int) "D" "C".
Proof. apply (add_route_other_edges demo_int "C" "D" 60 18 90 "D" "C"). discriminate. Defined.

(** ** The graphs an optimizer can hold *)

Section Built.
Context {W : Type} `{Number W}.
Implicit Types (G : Nx.DiGraph W) (self : EcoShipmentOptimizer W).

Lemma has_node_elem_of G n : Nx.has_node G n = true <-> n ∈ Nx._node G.
Proof.
  unfold Nx.has_node. rewrite existsb_exists. split.
  - intros (m & Hm & ->%String.eqb_eq). by apply list_elem_of_In.
  - intros Hn. exists n. split; [by apply list_elem_of_In|apply String.eqb_refl].
Qed.

Lemma add_node_same_keys G n : Nx.same_keys G -> Nx.same_keys (Nx.add_node_if_missing G n).
Proof.
  intros (Hnd & Hs & Hp). unfold Nx.add_node_if_missing.
  destruct (Nx.has_node G n) eqn:Hn; [done|].
  split_and!; simpl; rewrite ?fmap_app, ?Hs, ?Hp; try done.
  apply NoDup_app. split_and!; [done| |apply NoDup_singleton].
  intros m Hm ->%list_elem_of_singleton.
  apply has_node_elem_of in Hm. congruence.
Qed.

Lemma add_edge_same_keys G u v data : Nx.same_keys G -> Nx.same_keys (Nx.add_edge G u v data).
Proof.
  intros HG. unfold Nx.add_edge.
  set (G2 := Nx.add_node_if_missing (Nx.add_node_if_missing G u) v).
  assert (H2 : Nx.same_keys G2) by (by do 2 apply add_node_same_keys).
  assert (Hu : u ∈ Nx._node G2).
  { apply has_node_elem_of. unfold G2. rewrite !has_node_add. tauto. }
  assert (Hv : v ∈ Nx._node G2).
  { apply has_node_elem_of. unfold G2. rewrite !has_node_add. tauto. }
  destruct H2 as (Hnd & Hs & Hp).
  split_and!; cbn [Nx._node Nx._succ Nx._pred]; [done|..];
    rewrite keys_assoc_set, ?Hs, ?Hp; by rewrite bool_decide_eq_true_2.
Qed.

End Built.

Lemma built_wf {W : Type} `{Number W} (self : EcoShipmentOptimizer W) :
  built self -> Nx.wf (graph self).
Proof. induction 1; [apply init_wf | by apply add_route_wf]. Qed.

Lemma demo_int_built : built demo_int.
Proof.
  unfold demo_int, demo_int_routes, then_. repeat apply built_add_route. apply built_init.
Qed.

(** X5: whatever routes were added, the graph keeps the mirror of its
    edges: [v] is a successor of [u] with some data exactly when [u] is a
    predecessor of [v] with that data, both are then nodes, and no
    adjacency dictionary lists a neighbour twice. *)
Theorem built_graph_consistent {W : Type} `{Number W} (self : EcoShipmentOptimizer W) :
  built self ->
  (forall u v data,
     (v, data) ∈ Nx.items (Nx._succ (graph self)) u <->
     (u, data) ∈ Nx.items (Nx._pred (graph self)) v) /\
  (forall u v data,
     (v, data) ∈ Nx.items (Nx._succ (graph self)) u ->
     Nx.has_node (graph self) u = true /\ Nx.has_node (graph self) v = true) /\
  (forall u, NoDup (Nx.items (Nx._succ (graph self)) u).*1) /\
  (forall v, NoDup (Nx.items (Nx._pred (graph self)) v).*1).
Proof. intros Hb. by destruct (built_wf self Hb). Qed.

Lemma built_graph_consistent_witness :
  (forall u v data,
     (v, data) ∈ Nx.items (Nx._succ (graph demo_int)) u <->
     (u, data) ∈ Nx.items (Nx._pred (graph demo_int)) v) /\
  (forall u v data,
     (v, data) ∈ Nx.items (Nx._succ (graph demo_int)) u ->
     Nx.has_node (graph demo_int) u = true /\ Nx.has_node (graph demo_int) v = true) /\
  (forall u, NoDup (Nx.items (Nx._succ (graph demo_int)) u).*1) /\
  (forall v, NoDup (Nx.items (Nx._pred (graph demo_int)) v).*1).
Proof. exact (built_graph_consistent demo_int demo_int_built). Defined.

(** X6: whatever routes were added, no location is a node twice, and every
    node, and nothing else, has a successor and a predecessor dictionary:
    the three dictionaries have the same keys in the same order. *)
Theorem built_graph_keys {W : Type} `{Number W} (self : EcoShipmentOptimizer W) :
  built self ->
  NoDup (Nx._node (graph self)) /\
  (Nx._succ (graph self)).*1 = Nx._node (graph self) /\
  (Nx._pred (graph self)).*1 = Nx._node (graph self).
Proof.
  induction 1 as [|self s t d ef c _ IH]; [by split_and!; try apply NoDup_nil_2|].
  by apply add_edge_same_keys.
Qed.

Lemma built_graph_keys_witness :
  NoDup (Nx._node (graph demo_int)) /\
  (Nx._succ (graph demo_int)).*1 = Nx._node (graph demo_int) /\
  (Nx._pred (graph demo_int)).*1 = Nx._node (graph demo_int).
Proof. exact (built_graph_keys demo_int demo_int_built). Defined.

(** X7: with integer weights, a route whose distance and two factors are
    not negative keeps every weight of the graph non-negative, under each
    of the three attributes. *)
Theorem add_route_keeps_nonneg (self : EcoShipmentOptimizer Z)
    (source target : Nx.node) (distance emission_factor cost : Z) (a : Nx.attr) :
  built self -> Nx.nonneg (graph self) a ->
  0 <= distance -> 0 <= emission_factor -> 0 <= cost ->
  Nx.nonneg (graph (snd (add_route source target distance emission_factor cost self))) a.
Proof.
  intros Hb Hnn Hd He Hc. apply add_route_nonneg; [by apply built_wf|done|].
  unfold num_le. destruct a; simpl; nia.
Qed.

Lemma add_route_keeps_nonneg_witness :
  Nx.nonneg (graph (snd (add_route "D" "E" 30 12 70 demo_int))) Nx.Emission.
Proof.
  apply (add_route_keeps_nonneg demo_int "D" "E" 30 12 70 Nx.Emission demo_int_built
           (demo_int_nonneg Nx.Emission)); lia.
Defined.

(** ** More on the path queries *)

(** X8: a query about a location that is not a node of the graph, as
    source or as target, raises the library's [NodeNotFound] to the caller,
    from both queries and on every graph. *)
Theorem query_missing_node_raises {W : Type} `{Number W}
    (self : EcoShipmentOptimizer W) (source target : Nx.node) :
  Nx.has_node (graph self) source = false \/ Nx.has_node (graph self) target = false ->
  fst (calculate_min_emission_path source target self) = Raise NodeNotFound /\
  fst (calculate_min_cost_path source target self) = Raise NodeNotFound.
Proof.
  intros Hmiss.
  rewrite emission_run, cost_run.
  unfold min_path_of, Nx.shortest_path, Nx.bidirectional_dijkstra. cbn [fst].
  assert (negb (Nx.has_node (graph self) source) || negb (Nx.has_node (graph self) target)
          = true) as ->; [|done].
  destruct Hmiss as [-> | ->]; [done|apply orb_true_r].
Qed.

Lemma query_missing_node_raises_witness :
  fst (calculate_min_emission_path "A" "X" demo_int) = Raise NodeNotFound /\
  fst (calculate_min_cost_path "A" "X" demo_int) = Raise NodeNotFound.
Proof. apply (query_missing_node_raises demo_int "A" "X"). right. reflexivity. Defined.

(** X9: asked for the way from a node to itself, both queries return the
    path of that one node with weight zero, whatever the edges and their
    weights are. *)
Theorem query_same_node {W : Type} `{Number W}
    (self : EcoShipmentOptimizer W) (source : Nx.node) :
  Nx.has_node (graph self) source = true ->
  fst (calculate_min_emission_path source source self)
    = Return ([source], Finite num_zero) /\
  fst (calculate_min_cost_path source source self)
    = Return ([source], Finite num_zero).
Proof.
  intros Hs.
  rewrite emission_run, cost_run.
  unfold min_path_of, Nx.shortest_path, Nx.shortest_path_length,
    Nx.bidirectional_dijkstra, Nx.dijkstra_path_length.
  cbn [fst]. by rewrite Hs, String.eqb_refl.
Qed.

Lemma query_same_node_witness :
  fst (calculate_min_emission_path "C" "C" demo_int) = Return (["C"], Finite 0) /\
  fst (calculate_min_cost_path "C" "C" demo_int) = Return (["C"], Finite 0).
Proof. exact (query_same_node demo_int "C" eq_refl). Defined.

Section MoreQueries.
Context {W : Type} `{NumberLaws W}.
Implicit Types (G : Nx.DiGraph W) (self : EcoShipmentOptimizer W).

Lemma walk_first (adj : Nx.adjacency W) weight root v p w :
  Nx.walk adj weight root v p w -> head p = Some root.
Proof. induction 1 as [|v p w u e _ IH Hin]; [done|]. by destruct p. Qed.

(** Which nodes a walk visits does not depend on the weights. *)
Lemma walk_any_weight (adj : Nx.adjacency W) weight weight' root v p w :
  Nx.walk adj weight root v p w -> exists w', Nx.walk adj weight' root v p w'.
Proof.
  induction 1 as [|v p w u e _ [w' IH] Hin]; [eexists; constructor|].
  eexists. by eapply Nx.walk_step.
Qed.

Lemma no_path_unreachable G a source target :
  (forall q L, ~ Nx.path G a source target q L) -> Nx.unreachable G source target.
Proof.
  intros Hno a' p w [Hs Hwalk].
  destruct (walk_any_weight _ _ (Nx.weight_function a) _ _ _ _ Hwalk) as [w' Hw'].
  by apply (Hno p w').
Qed.

Lemma sentinel_iff a self source target :
  Nx.wf (graph self) -> Nx.nonneg (graph self) a ->
  Nx.has_node (graph self) source = true -> Nx.has_node (graph self) target = true ->
  fst (calculate_min_path a source target self) = Return ([], Inf) <->
  Nx.unreachable (graph self) source target.
Proof.
  intros Hwf Hnn Hs Ht.
  destruct (calculate_min_path_spec a self source target Hwf Hnn Hs Ht)
    as [(p & w & Hr & Hp & _)|[Hr Hno]]; rewrite Hr.
  - split; [done|]. intros Hun. by destruct (Hun _ _ _ Hp).
  - split; [|done]. intros _. by eapply no_path_unreachable.
Qed.

Lemma finite_is_path a self source target p w :
  Nx.wf (graph self) -> Nx.nonneg (graph self) a ->
  Nx.has_node (graph self) source = true -> Nx.has_node (graph self) target = true ->
  fst (calculate_min_path a source target self) = Return (p, Finite w) ->
  Nx.path (graph self) a source target p w /\
  head p = Some source /\ last p = Some target.
Proof.
  intros Hwf Hnn Hs Ht Hres.
  destruct (calculate_min_path_spec a self source target Hwf Hnn Hs Ht)
    as [(p' & w' & Hr & Hp & _)|[Hr Hno]]; rewrite Hr in Hres; [|done].
  injection Hres as -> ->. split; [done|]. destruct Hp as [_ Hwalk].
  split; [by eapply walk_first|]. destruct Hwalk; [done|apply last_snoc].
Qed.

End MoreQueries.

(** X10: between two nodes of a graph built by [add_route] without negative
    weights, the sentinel is exact: the emission query returns
    [([], inf)] if and only if the target cannot be reached from the
    source, and so does the cost query. *)
Theorem sentinel_means_unreachable {W : Type} `{NumberLaws W}
    (self : EcoShipmentOptimizer W) (source target : Nx.node) :
  built self ->
  Nx.has_node (graph self) source = true -> Nx.has_node (graph self) target = true ->
  (Nx.nonneg (graph self) Nx.Emission ->
   (fst (calculate_min_emission_path source target self) = Return ([], Inf) <->
    Nx.unreachable (graph self) source target)) /\
  (Nx.nonneg (graph self) Nx.Cost ->
   (fst (calculate_min_cost_path source target self) = Return ([], Inf) <->
    Nx.unreachable (graph self) source target)).
Proof.
  intros Hb Hs Ht. pose proof (built_wf self Hb) as Hwf. split; intros Hnn.
  - rewrite emission_query. by apply sentinel_iff.
  - rewrite cost_query. by apply sentinel_iff.
Qed.

Lemma sentinel_means_unreachable_witness :
  fst (calculate_min_emission_path "D" "A" demo_int) = Return ([], Inf) <->
  Nx.unreachable (graph demo_int) "D" "A".
Proof.
  exact (proj1 (sentinel_means_unreachable demo_int "D" "A" demo_int_built eq_refl eq_refl)
           (demo_int_nonneg Nx.Emission)).
Defined.

(** X11: when a query between two nodes of such a graph returns a path with
    a finite weight, the path is a path of the graph with exactly that
    weight, its first location is the source and its last the target. *)
Theorem returned_path_is_path {W : Type} `{NumberLaws W}
    (self : EcoShipmentOptimizer W) (source target : Nx.node)
    (p : list Nx.node) (w : W) :
  built self ->
  Nx.has_node (graph self) source = true -> Nx.has_node (graph self) target = true ->
  (Nx.nonneg (graph self) Nx.Emission ->
   fst (calculate_min_emission_path source target self) = Return (p, Finite w) ->
   Nx.path (graph self) Nx.Emission source target p w /\
   head p = Some source /\ last p = Some target) /\
  (Nx.nonneg (graph self) Nx.Cost ->
   fst (calculate_min_cost_path source target self) = Return (p, Finite w) ->
   Nx.path (graph self) Nx.Cost source target p w /\
   head p = Some source /\ last p = Some target).
Proof.
  intros Hb Hs Ht. pose proof (built_wf self Hb) as Hwf. split; intros Hnn Hres.
  - rewrite emission_query in Hres. by eapply finite_is_path.
  - rewrite cost_query in Hres. by eapply finite_is_path.
Qed.

Lemma returned_path_is_path_witness :
  Nx.path (graph demo_int) Nx.Emission "A" "D" ["A"; "B"; "C"; "D"] 3080 /\
  head ["A"; "B"; "C"; "D"] = Some "A"%string /\
  last ["A"; "B"; "C"; "D"] = Some "D"%string.
Proof.
  apply (proj1 (returned_path_is_path demo_int "A" "D" ["A"; "B"; "C"; "D"] 3080
                  demo_int_built eq_refl eq_refl)); [apply demo_int_nonneg|].
  vm_compute. reflexivity.
Defined.

Section Outcomes.
Context {W : Type} `{NumberLaws W}.
Implicit Types (self : EcoShipmentOptimizer W).

Lemma raise_is_missing_node a self source target e :
  Nx.wf (graph self) -> Nx.nonneg (graph self) a ->
  fst (calculate_min_path a source target self) = Raise e ->
  e = NodeNotFound /\
  (Nx.has_node (graph self) source = false \/ Nx.has_node (graph self) target = false).
Proof.
  intros Hwf Hnn Hres.
  destruct (Nx.has_node (graph self) source) eqn:Hs;
    [destruct (Nx.has_node (graph self) target) eqn:Ht|].
  - destruct (calculate_min_path_spec a self source target Hwf Hnn Hs Ht)
      as [(p & w & Hr & _)|[Hr _]]; congruence.
  - revert Hres.
    rewrite min_path_run.
    unfold min_path_of, Nx.shortest_path, Nx.bidirectional_dijkstra. cbn [fst].
    rewrite Hs, Ht. cbn [negb orb]. intros [= <-]. auto.
  - revert Hres.
    rewrite min_path_run.
    unfold min_path_of, Nx.shortest_path, Nx.bidirectional_dijkstra. cbn [fst].
    rewrite Hs. cbn [negb orb]. intros [= <-]. auto.
Qed.

Lemma direct_route_bound a self source target data :
  Nx.wf (graph self) -> Nx.nonneg (graph self) a ->
  Nx.get_edge_data (graph self) source target = Some data ->
  exists p w,
    fst (calculate_min_path a source target self) = Return (p, Finite w) /\
    num_le w (Nx.weight_function a data).
Proof.
  intros Hwf Hnn Hedge.
  assert ((target, data) ∈ Nx.items (Nx._succ (graph self)) source) as Hin.
  { revert Hedge. unfold Nx.get_edge_data.
    generalize (Nx.items (Nx._succ (graph self)) source). intros l.
    induction l as [|[k x] l IH]; simpl; [done|].
    destruct (String.eqb_spec k target) as [->|Hne].
    - intros [= ->]. by apply elem_of_cons; left.
    - intros Hl. apply elem_of_cons; right. by apply IH. }
  destruct (Nx.wf_node _ Hwf _ _ _ Hin) as [Hs Ht].
  assert (Nx.path (graph self) a source target ([source] ++ [target])
            (num_add num_zero (Nx.weight_function a data))) as Hpath.
  { split; [done|]. eapply Nx.walk_step; [constructor|done]. }
  destruct (calculate_min_path_spec a self source target Hwf Hnn Hs Ht)
    as [(p & w & Hr & _ & Hmin)|[_ Hno]]; [|by destruct (Hno _ _ Hpath)].
  exists p, w. split; [done|].
  specialize (Hmin _ _ Hpath). by rewrite num_add_comm, num_add_zero_r in Hmin.
Qed.

End Outcomes.

(** X12: on a graph built by [add_route] without negative weights, the only
    exception a query lets through is [NodeNotFound], and only when the
    source or the target is not a node of the graph; in particular the
    library's [ValueError] for contradictory paths never occurs. *)
Theorem query_raises_only_node_not_found {W : Type} `{NumberLaws W}
    (self : EcoShipmentOptimizer W) (source target : Nx.node) (e : exn) :
  built self ->
  (Nx.nonneg (graph self) Nx.Emission ->
   fst (calculate_min_emission_path source target self) = Raise e ->
   e = NodeNotFound /\
   (Nx.has_node (graph self) source = false \/ Nx.has_node (graph self) target = false)) /\
  (Nx.nonneg (graph self) Nx.Cost ->
   fst (calculate_min_cost_path source target self) = Raise e ->
   e = NodeNotFound /\
   (Nx.has_node (graph self) source = false \/ Nx.has_node (graph self) target = false)).
Proof.
  intros Hb. pose proof (built_wf self Hb) as Hwf. split; intros Hnn Hres.
  - rewrite emission_query in Hres. by eapply raise_is_missing_node.
  - rewrite cost_query in Hres. by eapply raise_is_missing_node.
Qed.

Lemma query_raises_only_node_not_found_witness :
  NodeNotFound = NodeNotFound /\
  (Nx.has_node (graph demo_int) "X" = false \/ Nx.has_node (graph demo_int) "D" = false).
Proof.
  apply (proj1 (query_raises_only_node_not_found demo_int "X" "D" NodeNotFound
                  demo_int_built)); [apply demo_int_nonneg|].
  vm_compute. reflexivity.
Defined.

(** X13: a route that was just added bounds the answer: if the graph still
    has no negative weights, the emission query between its two ends
    returns a path of weight at most [emission_factor * distance], and the
    cost query one of weight at most [cost * distance]. *)
Theorem new_route_bounds_query {W : Type} `{NumberLaws W}
    (self : EcoShipmentOptimizer W) (source target : Nx.node)
    (distance emission_factor cost : W) :
  let self' := snd (add_route source target distance emission_factor cost self) in
  built self ->
  (Nx.nonneg (graph self') Nx.Emission ->
   exists p w,
     fst (calculate_min_emission_path source target self') = Return (p, Finite w) /\
     num_le w (num_mul emission_factor distance)) /\
  (Nx.nonneg (graph self') Nx.Cost ->
   exists p w,
     fst (calculate_min_cost_path source target self') = Return (p, Finite w) /\
     num_le w (num_mul cost distance)).
Proof.
  intros self' Hb.
  assert (Nx.wf (graph self')) as Hwf by (apply built_wf; by constructor).
  assert (Nx.get_edge_data (graph self') source target
          = Some (Nx.mkEdge distance (num_mul emission_factor distance)
                    (num_mul cost distance))) as Hedge.
  { unfold self', Nx.get_edge_data, add_route, on_graph, Nx.Obj.add_edge. cbn [snd graph].
    destruct (items_add_edge (graph self) source target
                (Nx.mkEdge distance (num_mul emission_factor distance)
                   (num_mul cost distance)) source) as [-> _].
    by rewrite String.eqb_refl, assoc_assoc_set, String.eqb_refl. }
  split; intros Hnn.
  - rewrite emission_query.
    exact (direct_route_bound Nx.Emission self' source target _ Hwf Hnn Hedge).
  - rewrite cost_query.
    exact (direct_route_bound Nx.Cost self' source target _ Hwf Hnn Hedge).
Qed.

Lemma new_route_bounds_query_witness :
  exists p w,
    fst (calculate_min_emission_path "A" "D"
           (snd (add_route "A" "D" 300 10 100 demo_int))) = Return (p, Finite w) /\
    num_le w (num_mul 10 300).
Proof.
  apply (proj1 (new_route_bounds_query demo_int "A" "D" 300 10 100 demo_int_built)).
  apply add_route_nonneg; [apply demo_int_wf|apply demo_int_nonneg|reflexivity].
Defined.

(** ** More on the load planner *)

Lemma sum_from l a : fold_left Z.add l a = a + sum l.
Proof.
  unfold sum. revert a. induction l as [|d l IH]; intros a; simpl; [lia|].
  rewrite (IH (a + d)), (IH (0 + d)). lia.
Qed.

Lemma sum_cons d l : sum (d :: l) = d + sum l.
Proof. unfold sum at 1. simpl. by rewrite sum_from. Qed.

Lemma sum_app l1 l2 : sum (l1 ++ l2) = sum l1 + sum l2.
Proof.
  induction l1 as [|d l1 IH]; simpl; [done|]. rewrite !sum_cons, IH. lia.
Qed.

Lemma sum_perm l1 l2 : l1 ≡ₚ l2 -> sum l1 = sum l2.
Proof. induction 1; rewrite ?sum_cons; lia. Qed.

Lemma sum_nonneg l : Forall (fun d => 0 <= d) l -> 0 <= sum l.
Proof. induction 1; rewrite ?sum_cons; [done|lia]. Qed.

(** The final [if current_vehicle_load:] on the state the loop ends in. *)
Lemma load_plans_unfold demands cap :
  exists plans cur,
    fold_left (load_step cap) (sorted_reverse demands) ([], []) = (plans, cur) /\
    load_plans_of demands cap = (if decide (cur = []) then plans else plans ++ [cur]).
Proof.
  unfold load_plans_of. destruct (fold_left _ _ _) as [plans cur].
  exists plans, cur. split; [done|]. by destruct cur.
Qed.

(** While every demand fits a vehicle of its own, the loop closes no empty
    bin and no bin above the capacity. *)
Lemma load_loop_fit cap demands plans cur :
  Forall (fun d => d <= cap) demands ->
  Forall (fun P => P <> [] /\ sum P <= cap) plans ->
  cur = [] \/ sum cur <= cap ->
  let '(plans', cur') := fold_left (load_step cap) demands (plans, cur) in
  Forall (fun P => P <> [] /\ sum P <= cap) plans' /\ (cur' = [] \/ sum cur' <= cap).
Proof.
  intros Hd. revert plans cur.
  induction Hd as [|d demands Hd _ IH]; intros plans cur Hp Hc; simpl; [done|].
  destruct (Z.leb_spec (sum cur + d) cap) as [Hle|Hgt].
  - apply IH; [done|]. right. by rewrite sum_snoc.
  - apply IH.
    + apply Forall_app. split; [done|]. apply Forall_singleton.
      destruct Hc as [->|Hc]; [|split; [|done]].
      * unfold sum in Hgt. simpl in Hgt. lia.
      * intros ->. unfold sum in Hgt. simpl in Hgt. lia.
    + right. unfold sum. simpl. lia.
Qed.

Lemma load_plans_fit demands cap :
  Forall (fun d => d <= cap) demands ->
  Forall (fun P => P <> [] /\ sum P <= cap) (load_plans_of demands cap).
Proof.
  intros Hd.
  destruct (load_plans_unfold demands cap) as (plans & cur & Hloop & ->).
  assert (Forall (fun d => d <= cap) (sorted_reverse demands)) as Hs
    by by rewrite sorted_reverse_perm.
  pose proof (load_loop_fit cap _ [] [] Hs (Forall_nil_2 _) (or_introl eq_refl)) as Hfit.
  rewrite Hloop in Hfit. destruct Hfit as [Hp Hc].
  destruct (decide (cur = [])) as [|Hne]; [done|].
  apply Forall_app. split; [done|]. apply Forall_singleton. by destruct Hc.
Qed.

(** Once the current bin holds a demand, every bin closed from then on
    holds one, and so does the bin the loop ends with. *)
Lemma load_loop_nonempty cap demands plans cur :
  cur <> [] ->
  exists extra cur',
    fold_left (load_step cap) demands (plans, cur) = (plans ++ extra, cur') /\
    Forall (fun P => P <> []) extra /\ cur' <> [].
Proof.
  revert plans cur. induction demands as [|d demands IH]; intros plans cur Hc; simpl.
  - exists [], cur. by rewrite app_nil_r.
  - destruct (sum cur + d <=? cap).
    + apply IH. by destruct cur.
    + destruct (IH (plans ++ [cur]) [d]) as (extra & cur' & -> & Hex & Hc'); [done|].
      exists (cur :: extra), cur'. rewrite <- app_assoc. split; [done|].
      split; [by constructor|done].
Qed.

(** The largest demand comes first. *)
Lemma sorted_reverse_head demands d :
  d ∈ demands ->
  exists m rest, sorted_reverse demands = m :: rest /\ d <= m.
Proof.
  intros Hd. rewrite <- sorted_reverse_perm in Hd.
  pose proof (sorted_reverse_sorted demands) as Hs.
  destruct (sorted_reverse demands) as [|m rest]; [by apply elem_of_nil in Hd|].
  exists m, rest. split; [done|].
  apply elem_of_cons in Hd as [->|Hd]; [lia|].
  apply StronglySorted_inv in Hs as [_ Hall].
  rewrite Forall_forall in Hall. by apply Hall.
Qed.

Lemma greedy_snoc_inv cap L X :
  greedy cap (L ++ [X]) ->
  greedy cap L /\ forall P, last L = Some P -> closed_by cap P X.
Proof.
  intros Hg. split.
  - intros i P Q Hi HSi. apply (Hg i); by apply lookup_app_l_Some.
  - intros P HP. rewrite last_lookup in HP.
    assert (length L <> 0%nat) as Hlen by (destruct L; [done|simpl; lia]).
    apply (Hg (pred (length L))); [by apply lookup_app_l_Some|].
    replace (S (pred (length L))) with (length L) by lia.
    by rewrite list_lookup_middle.
Qed.

Lemma greedy_snoc cap L X :
  greedy cap L -> (forall P, last L = Some P -> closed_by cap P X) ->
  greedy cap (L ++ [X]).
Proof.
  intros Hg Hlast i P Q Hi HSi.
  pose proof (lookup_lt_Some _ _ _ HSi) as Hlt. rewrite length_app in Hlt. simpl in Hlt.
  destruct (decide (S i < length L)%nat) as [Hin|Hout].
  - rewrite lookup_app_l in Hi, HSi by lia. by apply (Hg i).
  - assert (S i = length L) as HiL by lia.
    rewrite lookup_app_l in Hi by lia.
    rewrite HiL, list_lookup_middle in HSi by done. injection HSi as <-.
    apply Hlast. rewrite last_lookup. by replace (pred (length L)) with i by lia.
Qed.

(** The loop closes a bin only when the next demand does not fit it. *)
Lemma load_loop_greedy cap demands plans cur :
  greedy cap (plans ++ [cur]) ->
  let '(plans', cur') := fold_left (load_step cap) demands (plans, cur) in
  greedy cap (plans' ++ [cur']).
Proof.
  revert plans cur. induction demands as [|d demands IH]; intros plans cur Hg; simpl; [done|].
  destruct (Z.leb_spec (sum cur + d) cap) as [Hle|Hgt].
  - apply IH. apply greedy_snoc_inv in Hg as [Hg Hlast].
    apply greedy_snoc; [done|]. intros P HP.
    destruct (Hlast P HP) as (d0 & Q' & -> & Hd0). by exists d0, (Q' ++ [d]).
  - apply IH. apply greedy_snoc; [done|]. intros P HP.
    rewrite last_snoc in HP. injection HP as <-. by exists d, [].
Qed.

Lemma load_plans_greedy demands cap : greedy cap (load_plans_of demands cap).
Proof.
  destruct (load_plans_unfold demands cap) as (plans & cur & Hloop & ->).
  assert (greedy cap ([] ++ [[]])) as H0 by (by intros [|i] P Q Hi HSi).
  pose proof (load_loop_greedy cap (sorted_reverse demands) [] [] H0) as Hg.
  rewrite Hloop in Hg.
  destruct (decide (cur = [])); [by apply greedy_snoc_inv in Hg as [Hg _]|done].
Qed.

(** Demands that fit together are never split. *)
Lemma load_loop_together cap demands plans cur :
  Forall (fun d => 0 <= d) demands -> sum cur + sum demands <= cap ->
  fold_left (load_step cap) demands (plans, cur) = (plans, cur ++ demands).
Proof.
  intros Hd. revert cur. induction Hd as [|d demands Hd Hds IH]; intros cur Hsum; simpl.
  - by rewrite app_nil_r.
  - rewrite sum_cons in Hsum. pose proof (sum_nonneg _ Hds).
    destruct (Z.leb_spec (sum cur + d) cap) as [Hle|Hgt]; [|lia].
    rewrite IH, <- app_assoc; [done|]. rewrite sum_snoc. lia.
Qed.

Lemma length_concat_nonempty {A} (L : list (list A)) :
  Forall (fun P => P <> []) L -> (length L <= length (concat L))%nat.
Proof.
  induction 1 as [|P L HP _ IH]; simpl; [done|].
  rewrite length_app. destruct P; [done|simpl; lia].
Qed.

(** Bins taken two at a time: each pair holds more than the capacity. *)
Lemma greedy_pairs cap (k : nat) L :
  greedy cap L -> Forall (Forall (fun d => 0 <= d)) L -> (2 * k <= length L)%nat ->
  cap * Z.of_nat k <= sum (concat L).
Proof.
  revert L. induction k as [|k IH]; intros L Hg Hnn Hlen.
  - rewrite Z.mul_0_r. apply sum_nonneg. by apply Forall_concat.
  - destruct L as [|P [|Q L]]; simpl in Hlen; [lia..|].
    destruct (Hg 0%nat P Q eq_refl eq_refl) as (d & Q' & -> & Hd).
    apply Forall_cons in Hnn as [HP Hnn]. apply Forall_cons in Hnn as [HQ Hnn].
    apply Forall_cons in HQ as [Hd0 HQ'].
    assert (cap * Z.of_nat k <= sum (concat L)) as Hrest.
    { apply IH; [|done|lia]. intros i P' Q'' Hi HSi. by apply (Hg (S (S i))). }
    rewrite Nat2Z.inj_succ. cbn [concat].
    rewrite !sum_app, sum_cons. pose proof (sum_nonneg _ HQ'). lia.
Qed.

(** X14: the plans depend on the demands as a multiset only: in whatever
    order the customers' demands are listed, the same plans come back. *)
Theorem optimize_load_order_irrelevant {W : Type} `{Number W}
    (self : EcoShipmentOptimizer W) (D1 D2 : list Z) (C : Z) :
  D1 ≡ₚ D2 -> fst (optimize_load D1 C self) = fst (optimize_load D2 C self).
Proof.
  intros HD. simpl. unfold load_plans_of. by rewrite (sorted_reverse_unique _ _ HD).
Qed.

Lemma optimize_load_order_irrelevant_witness :
  fst (optimize_load [20; 70; 50] 100 (@__init__ Z))
  = fst (optimize_load [70; 50; 20] 100 (@__init__ Z)).
Proof.
  apply (optimize_load_order_irrelevant (@__init__ Z) [20; 70; 50] [70; 50; 20] 100).
  apply (bool_decide_unpack _). vm_compute. exact I.
Defined.

(** X15: when no single demand exceeds the capacity, every plan holds at
    least one demand and sums to at most the capacity. *)
Theorem optimize_load_all_fit {W : Type} `{Number W}
    (self : EcoShipmentOptimizer W) (D : list Z) (C : Z) :
  Forall (fun d => d <= C) D ->
  Forall (fun P => P <> [] /\ sum P <= C) (fst (optimize_load D C self)).
Proof. apply load_plans_fit. Qed.

Lemma optimize_load_all_fit_witness :
  Forall (fun P => P <> [] /\ sum P <= 100)
    (fst (optimize_load [30; 40; 20; 50; 30] 100 (@__init__ Z))).
Proof.
  apply (optimize_load_all_fit (@__init__ Z) [30; 40; 20; 50; 30] 100).
  repeat constructor; lia.
Defined.

(** X16: as soon as one demand exceeds the capacity, the first plan that
    comes back is empty, and it is the only empty one: the loop closes the
    still empty first vehicle when the largest demand does not fit it. *)
Theorem optimize_load_leading_empty_plan {W : Type} `{Number W}
    (self : EcoShipmentOptimizer W) (D : list Z) (C d : Z) :
  d ∈ D -> C < d ->
  exists rest,
    fst (optimize_load D C self) = [] :: rest /\ Forall (fun P => P <> []) rest.
Proof.
  intros Hd HC. simpl.
  destruct (load_plans_unfold D C) as (plans & cur & Hloop & ->).
  destruct (sorted_reverse_head D d Hd) as (m & tl & Hs & Hm).
  rewrite Hs in Hloop. cbn [fold_left load_step] in Hloop.
  replace (sum [] + m <=? C) with false in Hloop
    by (symmetry; apply Z.leb_gt; unfold sum; simpl; lia).
  destruct (load_loop_nonempty C tl ([] ++ [[]]) [m]) as (extra & cur' & Hl & Hex & Hc);
    [done|].
  rewrite Hl in Hloop. injection Hloop as <- <-.
  rewrite decide_False by done. exists (extra ++ [cur']). split; [done|].
  apply Forall_app. split; [done|]. by apply Forall_singleton.
Qed.

Lemma optimize_load_leading_empty_plan_witness :
  exists rest,
    fst (optimize_load [30; 120; 80] 100 (@__init__ Z)) = [] :: rest /\
    Forall (fun P => P <> []) rest.
Proof.
  apply (optimize_load_leading_empty_plan (@__init__ Z) [30; 120; 80] 100 120); [|lia].
  apply list_elem_of_In. simpl. tauto.
Defined.

(** X17: a vehicle is closed only when it has to be: of two plans that
    follow one another, the second starts with a demand that did not fit on
    top of the first. *)
Theorem optimize_load_greedy {W : Type} `{Number W}
    (self : EcoShipmentOptimizer W) (D : list Z) (C : Z)
    (i : nat) (P Q : list Z) :
  fst (optimize_load D C self) !! i = Some P ->
  fst (optimize_load D C self) !! S i = Some Q ->
  exists d Q', Q = d :: Q' /\ C < sum P + d.
Proof. apply load_plans_greedy. Qed.

Lemma optimize_load_greedy_witness :
  exists d Q', [30; 30; 20] = d :: Q' /\ 100 < sum [50; 40] + d.
Proof.
  apply (optimize_load_greedy (@__init__ Z) [30; 40; 20; 50; 30] 100 0
           [50; 40] [30; 30; 20]); reflexivity.
Defined.

(** X18: non-negative demands that fit one vehicle together are put on one
    vehicle: the only plan is the demands in descending order. *)
Theorem optimize_load_single_vehicle {W : Type} `{Number W}
    (self : EcoShipmentOptimizer W) (D : list Z) (C : Z) :
  D <> [] -> Forall (fun d => 0 <= d) D -> sum D <= C ->
  fst (optimize_load D C self) = [sorted_reverse D].
Proof.
  intros Hne Hnn Hsum. simpl.
  destruct (load_plans_unfold D C) as (plans & cur & Hloop & ->).
  rewrite load_loop_together in Hloop.
  - injection Hloop as <- <-. simpl. rewrite decide_False; [done|].
    intros Hnil. apply Hne, Permutation_nil_r. by rewrite <- Hnil, sorted_reverse_perm.
  - by rewrite sorted_reverse_perm.
  - rewrite (sum_perm _ _ (sorted_reverse_perm D)). unfold sum at 1. simpl. lia.
Qed.

Lemma optimize_load_single_vehicle_witness :
  fst (optimize_load [20; 50; 30] 100 (@__init__ Z)) = [sorted_reverse [20; 50; 30]].
Proof.
  apply (optimize_load_single_vehicle (@__init__ Z) [20; 50; 30] 100).
  - discriminate.
  - repeat constructor; lia.
  - vm_compute. discriminate.
Defined.

(** X19: when no single demand exceeds the capacity, there are at most as
    many plans as demands. *)
Theorem optimize_load_count {W : Type} `{Number W}
    (self : EcoShipmentOptimizer W) (D : list Z) (C : Z) :
  Forall (fun d => d <= C) D ->
  (length (fst (optimize_load D C self)) <= length D)%nat.
Proof.
  intros Hd. simpl.
  rewrite <- (Permutation_length (sorted_reverse_perm D)), <- (load_plans_concat D C).
  apply length_concat_nonempty.
  eapply Forall_impl; [by apply load_plans_fit|]. by intros P [HP _].
Qed.

Lemma optimize_load_count_witness :
  (length (fst (optimize_load [30; 40; 20; 50; 30]%Z 100%Z (@__init__ Z)))
   <= length [30; 40; 20; 50; 30]%Z)%nat.
Proof.
  apply (optimize_load_count (@__init__ Z) [30; 40; 20; 50; 30] 100).
  repeat constructor; lia.
Defined.

(** X20: with non-negative demands, two plans that follow one another hold
    more than one capacity together, so the plans taken two at a time
    account for that much of the total demand: [k] disjoint pairs of plans
    need a total demand of at least [k] capacities. *)
Theorem optimize_load_pairs_bound {W : Type} `{Number W}
    (self : EcoShipmentOptimizer W) (D : list Z) (C : Z) (k : nat) :
  Forall (fun d => 0 <= d) D ->
  (2 * k <= length (fst (optimize_load D C self)))%nat ->
  C * Z.of_nat k <= sum D.
Proof.
  intros Hnn Hk. simpl in Hk.
  rewrite <- (sum_perm _ _ (sorted_reverse_perm D)), <- (load_plans_concat D C).
  apply greedy_pairs; [apply load_plans_greedy| |done].
  apply Forall_forall. intros P HP. apply Forall_forall. intros d Hd.
  rewrite Forall_forall in Hnn. apply Hnn.
  rewrite <- (sorted_reverse_perm D), <- (load_plans_concat D C).
  apply list_elem_of_In, in_concat. exists P. by rewrite <- !list_elem_of_In.
Qed.

Lemma optimize_load_pairs_bound_witness :
  100 * Z.of_nat 1 <= sum [30; 40; 20; 50; 30].
Proof.
  apply (optimize_load_pairs_bound (@__init__ Z) [30; 40; 20; 50; 30] 100 1).
  - repeat constructor; lia.
  - vm_compute. lia.
Defined.

(** ** The fresh optimizer and dead ends *)

(** X21: a fresh optimizer knows no location: until a route is added, both
    queries raise [NodeNotFound] for every source and target, the same
    location twice included. *)
Theorem fresh_optimizer_queries_raise {W : Type} `{Number W} (source target : Nx.node) :
  fst (calculate_min_emission_path source target (@__init__ W)) = Raise NodeNotFound /\
  fst (calculate_min_cost_path source target (@__init__ W)) = Raise NodeNotFound.
Proof. done. Qed.

Lemma walk_stuck {W : Type} `{Number W} (adj : Nx.adjacency W) weight root v p w :
  Nx.items adj root = [] -> Nx.walk adj weight root v p w -> v = root.
Proof.
  intros Hroot. induction 1 as [|v p w u e _ -> Hin]; [done|].
  rewrite Hroot in Hin. by apply elem_of_nil in Hin.
Qed.

(** X22: routes are one-way and a location that no route leaves is a dead
    end: on a graph built by [add_route] without negative weights, a query
    from such a location to another location of the graph returns the
    sentinel [([], inf)], whatever routes arrive there. *)
Theorem dead_end_gives_sentinel {W : Type} `{NumberLaws W}
    (self : EcoShipmentOptimizer W) (source target : Nx.node) :
  built self ->
  Nx.has_node (graph self) source = true -> Nx.has_node (graph self) target = true ->
  source <> target ->
  (forall v, Nx.get_edge_data (graph self) source v = None) ->
  (Nx.nonneg (graph self) Nx.Emission ->
   fst (calculate_min_emission_path source target self) = Return ([], Inf)) /\
  (Nx.nonneg (graph self) Nx.Cost ->
   fst (calculate_min_cost_path source target self) = Return ([], Inf)).
Proof.
  intros Hb Hs Ht Hne Hout. pose proof (built_wf self Hb) as Hwf.
  assert (Nx.items (Nx._succ (graph self)) source = []) as Hnil.
  { unfold Nx.get_edge_data in Hout.
    destruct (Nx.items (Nx._succ (graph self)) source) as [|[v e] l]; [done|].
    specialize (Hout v). simpl in Hout. by rewrite String.eqb_refl in Hout. }
  assert (Nx.unreachable (graph self) source target) as Hun.
  { intros a p w [_ Hwalk]. by apply walk_stuck in Hwalk. }
  split; intros Hnn.
  - rewrite emission_query. by apply sentinel_iff.
  - rewrite cost_query. by apply sentinel_iff.
Qed.

Lemma dead_end_gives_sentinel_witness :
  fst (calculate_min_cost_path "B" "A"
         (snd (add_route "A" "B" 100 10 100 (@__init__ Z)))) = Return ([], Inf).
Proof.
  refine (proj2 (dead_end_gives_sentinel
                   (snd (add_route "A" "B" 100 10 100 (@__init__ Z))) "B" "A"
                   _ eq_refl eq_refl _ _) _).
  - apply built_add_route, built_init.
  - discriminate.
  - intros v. reflexivity.
  - apply add_route_nonneg; [apply init_wf|apply empty_nonneg|reflexivity].
Defined.
